(** * SplineLoader: keyframe spline animation (src/scripts/splineLoader.js)

    A shallow embedding of the [SplineLoader] class: the temporal resolver,
    the two interpolators, the Bezier tessellator and the playback
    controller, followed by the properties of the specification.

    Modelling conventions.
    - A JavaScript number is an exact rational ([Qc], canonical fractions, so
      that Leibniz equality is numeric equality).  NaN and the infinities
      are outside the model; every division and every [%] of the source sits
      behind a guard against a zero divisor, and the guards are modelled.
    - A property that may be absent ([frame.curves], [frame.points],
      [curve.points], [metadata.frameRate], ...) is an [option].
    - A [TypeError] raised by reading a property of [undefined] is a
      [Throw]; methods that mutate the loader return the new state together
      with a completion, so that what was mutated before an exception stays
      mutated.
    - Object identity of frames ([prevFrame === nextFrame]) is identity of
      their position in [spline.frames]. *)

From Stdlib Require Import QArith Qcanon Qround ZArith Lia.
From stdpp Require Import base list strings numbers.

Local Open Scope Qc_scope.

(** ** Numbers *)

Module Num.

(** [Math.trunc]: the integer part, rounded towards zero. *)
Definition trunc (q : Qc) : Z := Z.quot (Qnum q) (Zpos (Qden q)).

(** The [%] operator on numbers: the remainder has the sign of the
    dividend.  JavaScript yields NaN for a zero divisor; the only use in
    the source is guarded by [duration === 0]. *)
Definition rem (a d : Qc) : Qc := a - d * Qc_of_Z (trunc (a / d)).

Definition Math_min (a b : Qc) : Qc := if bool_decide (a ≤ b) then a else b.
Definition Math_max (a b : Qc) : Qc := if bool_decide (a ≤ b) then b else a.

(** [v || d] for an optional number: [undefined] and [0] are falsy. *)
Definition or_default (v : option Qc) (d : Qc) : Qc :=
  match v with
  | Some n => if bool_decide (n = 0) then d else n
  | None => d
  end.

End Num.

Infix "%%" := Num.rem (at level 40, left associativity) : Qc_scope.

(** ** Exceptions *)

Inductive exn := TypeError.

Inductive result (A : Type) :=
  | Ok (a : A)
  | Throw (e : exn).
Arguments Ok {A} a.
Arguments Throw {A} e.

(** Sequencing: an exception skips the rest ([a ← r; k] is stdpp's
    notation for [mbind]). *)
Global Instance result_bind : MBind result := λ A B k r,
  match r with
  | Ok a => k a
  | Throw e => Throw e
  end.
Global Instance result_ret : MRet result := λ A a, Ok a.
Global Instance result_fmap : FMap result := λ A B f r,
  match r with
  | Ok a => Ok (f a)
  | Throw e => Throw e
  end.

(** Reading [o.prop] where [o] may be [undefined]. *)
Definition deref {A} (o : option A) : result A :=
  match o with
  | Some a => Ok a
  | None => Throw TypeError
  end.

(** [for (let i = start; i < start + count; i++) body], threading the
    variables the body mutates. *)
Fixpoint for_loop {S} (count start : nat) (body : nat → S → result S) (s : S)
  : result S :=
  match count with
  | O => Ok s
  | Datatypes.S count' =>
      s' ← body start s; for_loop count' (Datatypes.S start) body s'
  end.

(** ** Data model *)

Record Point3 := mkPoint3 { x : Qc; y : Qc; z : Qc }.

Record ControlPoint := mkControlPoint {
  knot : Point3;
  inHandle : Point3;
  outHandle : Point3;
}.

Module Curve.
Record t := mk {
  splineIndex : option Qc;
  points : option (list ControlPoint);
}.
End Curve.

Module Frame.
Record t := mk {
  frame : Qc;
  curves : option (list Curve.t);
  points : option (list Point3);
}.
End Frame.

Global Instance exn_eq_dec : EqDecision exn.
Proof. solve_decision. Defined.
Global Instance result_eq_dec `{EqDecision A} : EqDecision (result A).
Proof. solve_decision. Defined.
Global Instance Point3_eq_dec : EqDecision Point3.
Proof. solve_decision. Defined.
Global Instance ControlPoint_eq_dec : EqDecision ControlPoint.
Proof. solve_decision. Defined.
Global Instance Curve_eq_dec : EqDecision Curve.t.
Proof. solve_decision. Defined.
Global Instance Frame_eq_dec : EqDecision Frame.t.
Proof. solve_decision. Defined.

(** ** The three.js functions the loader calls *)

Module THREE.

(** Modelled from the spec: [THREE.MathUtils.lerp] belongs to the three.js
    library and is not under src/; section 4.3 gives
    [lerp(a,b,t) = a + (b-a)*t]. *)
Definition lerp (a b t : Qc) : Qc := a + (b - a) * t.

(** Modelled from the spec: [THREE.CubicBezierCurve3] belongs to the
    three.js library and is not under src/; section 4.4 describes a cubic
    Bezier arc from the start knot through the two handles to the end
    knot, evaluated at the curve parameter (the Bernstein form). *)
Definition CubicBezier (t p0 p1 p2 p3 : Qc) : Qc :=
  let k := 1 - t in
  k * k * k * p0 + Qc_of_Z 3 * k * k * t * p1
  + Qc_of_Z 3 * k * t * t * p2 + t * t * t * p3.

Record CubicBezierCurve3 := mkCurve {
  v0 : Point3; v1 : Point3; v2 : Point3; v3 : Point3;
}.

Definition getPoint (c : CubicBezierCurve3) (t : Qc) : Point3 :=
  {| x := CubicBezier t (x (v0 c)) (x (v1 c)) (x (v2 c)) (x (v3 c));
     y := CubicBezier t (y (v0 c)) (y (v1 c)) (y (v2 c)) (y (v3 c));
     z := CubicBezier t (z (v0 c)) (z (v1 c)) (z (v2 c)) (z (v3 c)) |}.

(** Modelled from the spec: [curve.getPoints(divisions)] belongs to the
    three.js library; section 4.4 has the arc sampled at [divisions+1]
    evenly spaced parameters [d / divisions], [d = 0 .. divisions]. *)
Definition getPoints (c : CubicBezierCurve3) (divisions : nat) : list Point3 :=
  map (λ d, getPoint c (Qc_of_Z (Z.of_nat d) / Qc_of_Z (Z.of_nat divisions)))
      (seq 0 (S divisions)).

End THREE.

(** ** Tessellation: [generateBezierCurve] *)

(** The default value of the parameter [segments]. *)
Definition default_segments : nat := 20.

Definition generateBezierCurve
    (bezierPoints : option (list ControlPoint)) (segments : nat)
  : result (list Point3) :=
  match bezierPoints with
  | None => Ok []
  | Some bezierPoints =>
      if bool_decide (length bezierPoints < 2)%nat then Ok []
      else
        curvePoints ←
          for_loop (length bezierPoints - 1) 0
            (λ i curvePoints,
               current ← deref (bezierPoints !! i);
               next ← deref (bezierPoints !! (i + 1)%nat);
               let curve :=
                 THREE.mkCurve (knot current) (outHandle current)
                               (inHandle next) (knot next) in
               let points := THREE.getPoints curve segments in
               Ok (curvePoints ++ points))
            [];
        if bool_decide (length bezierPoints = 1%nat) then
          point ← deref (bezierPoints !! 0%nat);
          Ok (curvePoints ++ [knot point])
        else Ok curvePoints
  end.

(** ** Interpolation *)

Definition interpolatePoints (points1 points2 : option (list Point3)) (t : Qc)
  : result (list Point3) :=
  (* [points1.length] and [points2.length] *)
  points1 ← deref points1;
  points2 ← deref points2;
  let minLength := Nat.min (length points1) (length points2) in
  for_loop minLength 0
    (λ i interpolated,
       p1 ← deref (points1 !! i);
       p2 ← deref (points2 !! i);
       Ok (interpolated ++
             [ {| x := THREE.lerp (x p1) (x p2) t;
                  y := THREE.lerp (y p1) (y p2) t;
                  z := THREE.lerp (z p1) (z p2) t |} ]))
    [].

Definition interpolateBezierCurves (curves1 curves2 : list Curve.t) (t : Qc)
  : result (list Curve.t) :=
  let minLength := Nat.min (length curves1) (length curves2) in
  for_loop minLength 0
    (λ i interpolated,
       curve1 ← deref (curves1 !! i);
       curve2 ← deref (curves2 !! i);
       match Curve.points curve1, Curve.points curve2 with
       | Some points1, Some points2 =>
           let minPoints := Nat.min (length points1) (length points2) in
           interpolatedPoints ←
             for_loop minPoints 0
               (λ j interpolatedPoints,
                  p1 ← deref (points1 !! j);
                  p2 ← deref (points2 !! j);
                  Ok (interpolatedPoints ++
                        [ {| knot :=
                               {| x := THREE.lerp (x (knot p1)) (x (knot p2)) t;
                                  y := THREE.lerp (y (knot p1)) (y (knot p2)) t;
                                  z := THREE.lerp (z (knot p1)) (z (knot p2)) t |};
                             inHandle :=
                               {| x := THREE.lerp (x (inHandle p1)) (x (inHandle p2)) t;
                                  y := THREE.lerp (y (inHandle p1)) (y (inHandle p2)) t;
                                  z := THREE.lerp (z (inHandle p1)) (z (inHandle p2)) t |};
                             outHandle :=
                               {| x := THREE.lerp (x (outHandle p1)) (x (outHandle p2)) t;
                                  y := THREE.lerp (y (outHandle p1)) (y (outHandle p2)) t;
                                  z := THREE.lerp (z (outHandle p1)) (z (outHandle p2)) t |}
                          |} ]))
               [];
           Ok (interpolated ++
                 [ {| Curve.splineIndex :=
                        Some (Num.or_default (Curve.splineIndex curve1)
                                (Num.or_default (Curve.splineIndex curve2)
                                   (Qc_of_Z (Z.of_nat i) + 1)));
                      Curve.points := Some interpolatedPoints |} ])
       | _, _ => Ok interpolated
       end)
    [].

(** ** Tracks and the loader *)

Module Metadata.
Record t := mk {
  frameRate : option Qc;
  closed : option bool;
}.
(** The empty object of [data.metadata || {}]. *)
Definition empty : t := {| frameRate := None; closed := None |}.
End Metadata.

(** [THREE.LineBasicMaterial], by its constructor parameters. *)
Record Material := mkMaterial { color : Z; linewidth : Z }.

(** [THREE.BufferGeometry]: only the [position] attribute is ever set; it
    holds the flat array given to [Float32BufferAttribute]. *)
Record BufferGeometry := mkGeometry { position : option (list Qc) }.

(** [THREE.Line]: the mesh shares the geometry object of its spline, so
    only the fields of its own are kept here. *)
Record Mesh := mkMesh {
  mesh_name : string;
  mesh_material : Material;
  visible : bool;
}.

Record Spline := mkSpline {
  name : string;
  frames : list Frame.t;
  geometry : BufferGeometry;
  material : Material;
  mesh : option Mesh;
  closed : bool;
}.

Record SplineLoader := mkLoader {
  splines : list Spline;
  currentTime : Qc;
  duration : Qc;
  isPlaying : bool;
  loop : bool;
  speed : Qc;
  metadata : option Metadata.t;
}.

Global Instance Metadata_eq_dec : EqDecision Metadata.t.
Proof. solve_decision. Defined.
Global Instance Material_eq_dec : EqDecision Material.
Proof. solve_decision. Defined.
Global Instance BufferGeometry_eq_dec : EqDecision BufferGeometry.
Proof. solve_decision. Defined.
Global Instance Mesh_eq_dec : EqDecision Mesh.
Proof. solve_decision. Defined.
Global Instance Spline_eq_dec : EqDecision Spline.
Proof. solve_decision. Defined.
Global Instance SplineLoader_eq_dec : EqDecision SplineLoader.
Proof. solve_decision. Defined.

(** How a method that mutates the loader ends. *)
Inductive completion := Normal | Abrupt (e : exn).

Global Instance completion_eq_dec : EqDecision completion.
Proof. solve_decision. Defined.

(** [spline.geometry.setAttribute('position', ...)]. *)
Definition setAttribute_position (spline : Spline) (positions : list Qc) : Spline :=
  {| name := name spline; frames := frames spline;
     geometry := {| position := Some positions |};
     material := material spline; mesh := mesh spline;
     closed := closed spline |}.

Definition set_splines (this : SplineLoader) (v : list Spline) : SplineLoader :=
  {| splines := v; currentTime := currentTime this; duration := duration this;
     isPlaying := isPlaying this; loop := loop this; speed := speed this;
     metadata := metadata this |}.

Definition set_currentTime (this : SplineLoader) (v : Qc) : SplineLoader :=
  {| splines := splines this; currentTime := v; duration := duration this;
     isPlaying := isPlaying this; loop := loop this; speed := speed this;
     metadata := metadata this |}.

Definition set_isPlaying (this : SplineLoader) (v : bool) : SplineLoader :=
  {| splines := splines this; currentTime := currentTime this;
     duration := duration this; isPlaying := v; loop := loop this;
     speed := speed this; metadata := metadata this |}.

Definition set_duration (this : SplineLoader) (v : Qc) : SplineLoader :=
  {| splines := splines this; currentTime := currentTime this; duration := v;
     isPlaying := isPlaying this; loop := loop this; speed := speed this;
     metadata := metadata this |}.

Definition set_metadata (this : SplineLoader) (v : option Metadata.t) : SplineLoader :=
  {| splines := splines this; currentTime := currentTime this;
     duration := duration this; isPlaying := isPlaying this; loop := loop this;
     speed := speed this; metadata := v |}.

(** ** The temporal resolver and [updateSplineGeometry] *)

(** The scan of lines 92-101.  A frame is carried with its index, which
    stands for its identity.  The test [!nextFrame] is always true when it is
    evaluated, since the loop breaks as soon as [nextFrame] is assigned. *)
Fixpoint scanFrames (frames : list Frame.t) (i : nat) (targetFrame : Qc)
    (prevFrame : option (nat * Frame.t))
  : option (nat * Frame.t) * option (nat * Frame.t) :=
  match frames with
  | [] => (prevFrame, None)
  | frame :: rest =>
      let prevFrame :=
        if bool_decide (Frame.frame frame ≤ targetFrame)
        then Some (i, frame) else prevFrame in
      if bool_decide (targetFrame ≤ Frame.frame frame)
      then (prevFrame, Some (i, frame))
      else scanFrames rest (S i) targetFrame prevFrame
  end.

(** The value of [interpolatedData]: [undefined], an array of curve
    segments or an array of raw points. *)
Inductive Data :=
  | DUndefined
  | DCurves (cs : list Curve.t)
  | DPoints (ps : list Point3).

(** [frame.curves || frame.points]: an array, even an empty one, is truthy. *)
Definition curves_or_points (frame : Frame.t) : Data :=
  match Frame.curves frame with
  | Some cs => DCurves cs
  | None =>
      match Frame.points frame with
      | Some ps => DPoints ps
      | None => DUndefined
      end
  end.

Definition truthy (d : Data) : bool :=
  match d with DUndefined => false | _ => true end.

Definition Array_isArray (d : Data) : bool :=
  match d with DUndefined => false | _ => true end.

(** An element visited by [interpolatedData.forEach]. *)
Inductive Elem :=
  | ECurve (c : Curve.t)
  | EPoint (p : Point3).

Definition elements (d : Data) : list Elem :=
  match d with
  | DUndefined => []
  | DCurves cs => ECurve <$> cs
  | DPoints ps => EPoint <$> ps
  end.

(** [curve.points] read on an element: a raw point has no such property. *)
Definition elem_points (e : Elem) : option (list ControlPoint) :=
  match e with
  | ECurve c => Curve.points c
  | EPoint _ => None
  end.

(** [point.x, point.y, point.z] read on an element.  A curve segment has
    none of these properties (the reads would give [undefined]); the branch
    that reads them is never taken, see [point_branch_unreachable]. *)
Definition elem_xyz (e : Elem) : list Qc :=
  match e with
  | EPoint p => [x p; y p; z p]
  | ECurve _ => []
  end.

(** [array.forEach(body)], threading the variables the body mutates. *)
Fixpoint forEach {A S} (l : list A) (body : A → S → result S) (s : S) : result S :=
  match l with
  | [] => Ok s
  | a :: l' => s' ← body a s; forEach l' body s'
  end.

(** Lines 134-157: the flat position array built from [interpolatedData]. *)
Definition buildPositions (interpolatedData : Data) (closed : bool)
  : result (list Qc) :=
  positions ←
    (if truthy interpolatedData && Array_isArray interpolatedData then
       forEach (elements interpolatedData)
         (λ curve positions,
            match elem_points curve with
            | Some points =>
                curvePoints ← generateBezierCurve (Some points) default_segments;
                Ok (positions ++ (curvePoints ≫= λ point, [x point; y point; z point]))
            | None => Ok positions
            end)
         []
     else if truthy interpolatedData && Array_isArray interpolatedData then
       forEach (elements interpolatedData)
         (λ point positions, Ok (positions ++ elem_xyz point))
         []
     else Ok []);
  (* the length of [positions] is a multiple of 3 *)
  if closed && bool_decide (0 < length positions)%nat
  then Ok (positions ++ take 3 positions)
  else Ok positions.

(** Lines 114-131: the synthetic frame between the two bracketing frames. *)
Definition interpolateFrames (prevFrame nextFrame : nat * Frame.t)
    (targetFrame : Qc) : result Data :=
  if bool_decide (prevFrame.1 = nextFrame.1) then
    Ok (curves_or_points prevFrame.2)
  else
    let frameDiff := Frame.frame nextFrame.2 - Frame.frame prevFrame.2 in
    let t :=
      if bool_decide (frameDiff = 0) then 0
      else (targetFrame - Frame.frame prevFrame.2) / frameDiff in
    match Frame.curves prevFrame.2, Frame.curves nextFrame.2 with
    | Some curves1, Some curves2 =>
        DCurves <$> interpolateBezierCurves curves1 curves2 t
    | _, _ =>
        DPoints <$>
          interpolatePoints (Frame.points prevFrame.2) (Frame.points nextFrame.2) t
    end.

(** [updateSplineGeometry(spline, time)].  The only mutation is the last
    statement, so an exception leaves the spline as it was: the result is
    the updated spline, or the exception. *)
Definition updateSplineGeometry (metadata : option Metadata.t)
    (spline : Spline) (time : Qc) : result Spline :=
  metadata ← deref metadata;
  let frameRate := Num.or_default (Metadata.frameRate metadata) (Qc_of_Z 30) in
  let targetFrame := time * frameRate in
  match scanFrames (frames spline) 0 targetFrame None with
  | (None, None) => Ok spline
  | (prevFrame, nextFrame) =>
      let nextFrame := if nextFrame is Some _ then nextFrame else prevFrame in
      let prevFrame := if prevFrame is Some _ then prevFrame else nextFrame in
      prevFrame ← deref prevFrame;
      nextFrame ← deref nextFrame;
      interpolatedData ← interpolateFrames prevFrame nextFrame targetFrame;
      positions ← buildPositions interpolatedData (closed spline);
      Ok (setAttribute_position spline positions)
  end.

(** ** The playback controller *)

(** [new SplineLoader()]; [this.metadata] is not assigned before a load. *)
Definition constructor : SplineLoader :=
  {| splines := []; currentTime := 0; duration := 0; isPlaying := false;
     loop := true; speed := 1; metadata := None |}.

(** The [forEach] of [updateSplines]: the tracks before the one that throws
    have been updated, the ones after it have not. *)
Fixpoint updateSplines_forEach (metadata : option Metadata.t) (time : Qc)
    (l : list Spline) : list Spline * completion :=
  match l with
  | [] => ([], Normal)
  | spline :: rest =>
      match updateSplineGeometry metadata spline time with
      | Ok spline' =>
          let '(rest', c) := updateSplines_forEach metadata time rest in
          (spline' :: rest', c)
      | Throw e => (spline :: rest, Abrupt e)
      end
  end.

Definition updateSplines (this : SplineLoader) : SplineLoader * completion :=
  let '(l, c) :=
    updateSplines_forEach (metadata this) (currentTime this) (splines this) in
  (set_splines this l, c).

Definition update (deltaTime : Qc) (this : SplineLoader)
  : SplineLoader * completion :=
  if negb (isPlaying this) || bool_decide (duration this = 0) then (this, Normal)
  else
    let this := set_currentTime this (currentTime this + deltaTime * speed this) in
    let this :=
      if loop this then
        set_currentTime this (currentTime this %% duration this)
      else
        let this :=
          set_currentTime this (Num.Math_min (currentTime this) (duration this)) in
        if bool_decide (duration this ≤ currentTime this)
        then set_isPlaying this false
        else this in
    updateSplines this.

Definition setTime (time : Qc) (this : SplineLoader) : SplineLoader * completion :=
  let this :=
    set_currentTime this (Num.Math_max 0 (Num.Math_min time (duration this))) in
  updateSplines this.

Definition setProgress (progress : Qc) (this : SplineLoader)
  : SplineLoader * completion :=
  let clampedProgress := Num.Math_max 0 (Num.Math_min 1 progress) in
  setTime (clampedProgress * duration this) this.

Definition play (this : SplineLoader) : SplineLoader * completion :=
  (set_isPlaying this true, Normal).

Definition pause (this : SplineLoader) : SplineLoader * completion :=
  (set_isPlaying this false, Normal).

Definition stop (this : SplineLoader) : SplineLoader * completion :=
  let this := set_isPlaying this false in
  let this := set_currentTime this 0 in
  updateSplines this.

Definition getProgress (this : SplineLoader) : Qc :=
  if bool_decide (0 < duration this) then currentTime this / duration this else 0.

(** ** Parsing *)

Record SplineData := mkSplineData {
  data_name : string;
  data_frames : list Frame.t;
}.

Record AssetData := mkAssetData {
  data_metadata : option Metadata.t;
  data_splines : option (list SplineData);
}.

(** The body of [data.splines.forEach] in [parseSplineData], threading
    [this] and [maxFrame]. *)
Fixpoint parse_forEach (l : list SplineData) (this : SplineLoader)
    (maxFrame : Qc) : SplineLoader * Qc * completion :=
  match l with
  | [] => (this, maxFrame, Normal)
  | splineData :: rest =>
      let spline :=
        {| name := data_name splineData;
           frames := data_frames splineData;
           geometry := {| position := None |};
           material := {| color := 0x00ff00; linewidth := 2 |};
           mesh := None;
           closed := default false (metadata this ≫= Metadata.closed) |} in
      let maxFrame :=
        foldl (λ maxFrame frame, Num.Math_max maxFrame (Frame.frame frame))
              maxFrame (data_frames splineData) in
      match updateSplineGeometry (metadata this) spline 0 with
      | Throw e => (this, maxFrame, Abrupt e)
      | Ok spline =>
          let spline :=
            {| name := name spline; frames := frames spline;
               geometry := geometry spline; material := material spline;
               mesh := Some {| mesh_name := name spline;
                               mesh_material := material spline;
                               visible := true |};
               closed := closed spline |} in
          parse_forEach rest (set_splines this (splines this ++ [spline])) maxFrame
      end
  end.

Definition parseSplineData (data : AssetData) (this : SplineLoader)
  : SplineLoader * completion :=
  let this :=
    set_metadata this (Some (default Metadata.empty (data_metadata data))) in
  let this := set_splines this [] in
  match data_splines data with
  | None => (this, Abrupt TypeError)
  | Some l =>
      match parse_forEach l this 0 with
      | (this, maxFrame, Normal) =>
          let frameRate :=
            Num.or_default (metadata this ≫= Metadata.frameRate) (Qc_of_Z 30) in
          (set_duration this (maxFrame / frameRate), Normal)
      | (this, _, Abrupt e) => (this, Abrupt e)
      end
  end.

(** ** Sample data *)

Definition P (a b c : Z) : Point3 :=
  {| x := Qc_of_Z a; y := Qc_of_Z b; z := Qc_of_Z c |}.

(** A control point with zero-length handles. *)
Definition K (a b c : Z) : ControlPoint :=
  {| knot := P a b c; inHandle := P a b c; outHandle := P a b c |}.

Definition md30 : Metadata.t :=
  {| Metadata.frameRate := Some (Qc_of_Z 30); Metadata.closed := None |}.

Definition track (fs : list Frame.t) (cl : bool) : Spline :=
  {| name := "track"; frames := fs; geometry := {| position := None |};
     material := {| color := 0x00ff00; linewidth := 2 |};
     mesh := None; closed := cl |}.

Definition loader (ss : list Spline) (time dur : Z) (playing looping : bool)
  : SplineLoader :=
  {| splines := ss; currentTime := Qc_of_Z time; duration := Qc_of_Z dur;
     isPlaying := playing; loop := looping; speed := 1;
     metadata := Some md30 |}.

(** The loader after parsing an asset of one track with frame rate 30 whose
    keyframe 0 carries one curve segment and whose keyframe 30 carries raw
    points only (see [mixed_asset_loads]). *)
Definition mixed_loader : SplineLoader :=
  {| splines :=
       [ {| name := "track";
            frames :=
              [ Frame.mk 0 (Some [Curve.mk None (Some [K 0 0 0; K 3 0 0])]) None;
                Frame.mk (Qc_of_Z 30) None (Some [P 1 0 0]) ];
            geometry :=
              {| position :=
                   Some ((THREE.getPoints
                            (THREE.mkCurve (P 0 0 0) (P 0 0 0) (P 3 0 0) (P 3 0 0))
                            default_segments)
                         ≫= λ point, [x point; y point; z point]) |};
            material := {| color := 0x00ff00; linewidth := 2 |};
            mesh := Some {| mesh_name := "track";
                            mesh_material := {| color := 0x00ff00; linewidth := 2 |};
                            visible := true |};
            closed := false |} ];
     currentTime := 0; duration := 1; isPlaying := false; loop := true;
     speed := 1; metadata := Some md30 |}.

(** ** Notions used to state the properties *)

(** Emissions of a loop that pairs two arrays by index: what [f] gives at
    each index where both arrays have an element, in order. *)
Fixpoint paired {A B C} (f : nat → A → B → list C) (i : nat)
    (l1 : list A) (l2 : list B) : list C :=
  match l1, l2 with
  | a :: l1, b :: l2 => f i a b ++ paired f (S i) l1 l2
  | _, _ => []
  end.

(** Section 4.3 of the specification: [lerp(a,b,t) = a + (b-a)*t], applied
    to each component of a point and to each of the three points of a
    control point. *)
Definition lerpPoint3 (p1 p2 : Point3) (t : Qc) : Point3 :=
  {| x := x p1 + (x p2 - x p1) * t;
     y := y p1 + (y p2 - y p1) * t;
     z := z p1 + (z p2 - z p1) * t |}.

Definition lerpControlPoint (p1 p2 : ControlPoint) (t : Qc) : ControlPoint :=
  {| knot := lerpPoint3 (knot p1) (knot p2) t;
     inHandle := lerpPoint3 (inHandle p1) (inHandle p2) t;
     outHandle := lerpPoint3 (outHandle p1) (outHandle p2) t |}.

(** The segment that pairing [c1] and [c2] at index [i] gives, if both carry
    a control-point array. *)
Definition pairedSegment (t : Qc) (i : nat) (c1 c2 : Curve.t) : option Curve.t :=
  points1 ← Curve.points c1;
  points2 ← Curve.points c2;
  Some {| Curve.splineIndex :=
            Some (Num.or_default (Curve.splineIndex c1)
                    (Num.or_default (Curve.splineIndex c2)
                       (Qc_of_Z (Z.of_nat i) + 1)));
          Curve.points :=
            Some (zip_with (λ p1 p2, lerpControlPoint p1 p2 t) points1 points2) |}.

(** A curve segment that has its control-point array, as the data model of
    the specification has it. *)
Definition has_points (c : Curve.t) : Prop := is_Some (Curve.points c).

(** The public playback operations, and a call of one of them. *)
Inductive Call :=
  | Play
  | Pause
  | Stop
  | SetTime (time : Qc)
  | SetProgress (progress : Qc)
  | Update (deltaTime : Qc).

Definition run (c : Call) (this : SplineLoader) : SplineLoader * completion :=
  match c with
  | Play => play this
  | Pause => pause this
  | Stop => stop this
  | SetTime time => setTime time this
  | SetProgress progress => setProgress progress this
  | Update deltaTime => update deltaTime this
  end.

(** The invariant [currentTime ∈ [0, duration]]. *)
Definition time_in_range (this : SplineLoader) : Prop :=
  0 ≤ currentTime this ∧ currentTime this ≤ duration this.

(** What a track is apart from its derived position buffer: name, frames,
    material, mesh (with its visibility) and closed flag. *)
Definition track_static (spline : Spline)
  : string * list Frame.t * Material * option Mesh * bool :=
  (name spline, frames spline, material spline, mesh spline, closed spline).

(** Two states of the loader that differ at most in [currentTime] and in
    the position buffers of the tracks. *)
Definition same_but_time_and_buffers (this this' : SplineLoader) : Prop :=
  isPlaying this' = isPlaying this ∧ loop this' = loop this
  ∧ speed this' = speed this ∧ duration this' = duration this
  ∧ metadata this' = metadata this
  ∧ track_static <$> splines this' = track_static <$> splines this.

(** A track whose keyframes all carry raw points, or all carry curve
    segments. *)
Definition homogeneous (spline : Spline) : Prop :=
  Forall (λ f, is_Some (Frame.points f)) (frames spline)
  ∨ Forall (λ f, is_Some (Frame.curves f)) (frames spline).

(** ** The remaining methods of the loader *)

Definition getDuration (this : SplineLoader) : Qc := duration this.

Definition getCurrentTime (this : SplineLoader) : Qc := currentTime this.

(** [this.splines.find((spline) => spline.name === name)]: the first track
    with that name, together with its index, which stands for its identity. *)
Definition findSpline (n : string) (this : SplineLoader) : option (nat * Spline) :=
  list_find (λ spline, name spline = n) (splines this).

(** [getSplineByName(name)]; [None] is [null]. *)
Definition getSplineByName (n : string) (this : SplineLoader) : option Spline :=
  snd <$> findSpline n this.

Definition set_mesh (spline : Spline) (m : option Mesh) : Spline :=
  {| name := name spline; frames := frames spline;
     geometry := geometry spline; material := material spline;
     mesh := m; closed := closed spline |}.

(** [spline.mesh.material = material] when [spline.mesh] is not [null]. *)
Definition assign_mesh_material (m : Material) (spline : Spline) : Spline :=
  match mesh spline with
  | Some me =>
      set_mesh spline
        (Some {| mesh_name := mesh_name me; mesh_material := m;
                 visible := visible me |})
  | None => spline
  end.

(** [spline.mesh.visible = visible] when [spline.mesh] is not [null]. *)
Definition assign_mesh_visible (v : bool) (spline : Spline) : Spline :=
  match mesh spline with
  | Some me =>
      set_mesh spline
        (Some {| mesh_name := mesh_name me; mesh_material := mesh_material me;
                 visible := v |})
  | None => spline
  end.

(** The found track is an element of [this.splines]: assigning to its mesh
    changes that element. *)
Definition setSplineMaterial (n : string) (m : Material) (this : SplineLoader)
  : SplineLoader :=
  match findSpline n this with
  | Some (i, spline) =>
      set_splines this (<[i := assign_mesh_material m spline]> (splines this))
  | None => this
  end.


Definition setSplineVisibility (n : string) (v : bool) (this : SplineLoader)
  : SplineLoader :=
  match findSpline n this with
  | Some (i, spline) =>
      set_splines this (<[i := assign_mesh_visible v spline]> (splines this))
  | None => this
  end.

(** A call of [dispose()] on a three.js resource. *)
Inductive Disposed :=
  | DisposedGeometry (g : BufferGeometry)
  | DisposedMaterial (m : Material).

(** [dispose()]: the new state and the resources disposed of, in order.
    [spline.geometry] and [spline.material] are objects, hence truthy. *)
Definition dispose (this : SplineLoader) : SplineLoader * list Disposed :=
  (set_splines this [],
   splines this ≫= λ spline,
     [DisposedGeometry (geometry spline); DisposedMaterial (material spline)]).

(** ** Parts of [updateSplineGeometry] by themselves *)

(** Lines 89-112: the bracketing frames after the edge cases, [None] when
    the method returns for want of frames. *)
Definition resolveBracket (frames : list Frame.t) (targetFrame : Qc)
  : option ((nat * Frame.t) * (nat * Frame.t)) :=
  match scanFrames frames 0 targetFrame None with
  | (None, None) => None
  | (Some prevFrame, Some nextFrame) => Some (prevFrame, nextFrame)
  | (Some prevFrame, None) => Some (prevFrame, prevFrame)
  | (None, Some nextFrame) => Some (nextFrame, nextFrame)
  end.

(** Lines 121-122: the interpolation factor. *)
Definition interpolationFactor (prevFrame nextFrame : Frame.t)
    (targetFrame : Qc) : Qc :=
  let frameDiff := Frame.frame nextFrame - Frame.frame prevFrame in
  if bool_decide (frameDiff = 0) then 0
  else (targetFrame - Frame.frame prevFrame) / frameDiff.

(** Lines 124-130: the blend of two distinct frames at factor [t]. *)
Definition blendFrames (prevFrame nextFrame : Frame.t) (t : Qc) : result Data :=
  match Frame.curves prevFrame, Frame.curves nextFrame with
  | Some curves1, Some curves2 =>
      DCurves <$> interpolateBezierCurves curves1 curves2 t
  | _, _ =>
      DPoints <$>
        interpolatePoints (Frame.points prevFrame) (Frame.points nextFrame) t
  end.

(** The frame rate in use: [this.metadata.frameRate || 30]. *)
Definition frameRateOf (md : Metadata.t) : Qc :=
  Num.or_default (Metadata.frameRate md) (Qc_of_Z 30).

(** Two keyframes of raw points, at frames 0 and 30. *)
Definition fs_sample : list Frame.t :=
  [ Frame.mk 0 None (Some [P 0 0 0]);
    Frame.mk (Qc_of_Z 30) None (Some [P 6 0 0]) ].

(** A sequence of public calls, each on the state the previous one left,
    whether it completed normally or threw (the loader stays usable). *)
Definition run_all (calls : list Call) (this : SplineLoader) : SplineLoader :=
  foldl (λ s c, (run c s).1) this calls.


(** * Properties *)

(** ** Arithmetic of the number model *)

Section numbers.
Implicit Types a b d q t : Qc.

Lemma trunc_floor q : 0 ≤ q → Num.trunc q = Qfloor q.
Proof.
  intros Hq. unfold Num.trunc. destruct q as [[n d] Hc]; simpl in *.
  apply Z.quot_div_nonneg; [|lia].
  unfold Qcle, Qle in Hq. simpl in Hq. lia.
Qed.

Lemma trunc_le q : 0 ≤ q → Qc_of_Z (Num.trunc q) ≤ q.
Proof. intros Hq. rewrite trunc_floor by done. unfold Qcle. simpl. apply Qfloor_le. Qed.

Lemma trunc_lt q : 0 ≤ q → q < Qc_of_Z (Num.trunc q) + 1.
Proof.
  intros Hq. rewrite trunc_floor by done. unfold Qclt. simpl.
  rewrite Qred_correct. rewrite <- (inject_Z_plus _ 1). apply Qlt_floor.
Qed.

Lemma trunc_nonneg q : 0 ≤ q → (0 ≤ Num.trunc q)%Z.
Proof.
  intros Hq. rewrite trunc_floor by done.
  change 0%Z with (Qfloor 0). by apply Qfloor_resp_le.
Qed.

Lemma div_nonneg a d : 0 ≤ a → 0 < d → 0 ≤ a / d.
Proof.
  intros Ha Hd. unfold Qcdiv. apply Qcmult_nonneg_nonneg; [done|].
  by apply Qclt_le_weak, Qcinv_pos.
Qed.

Lemma rem_decompose a d : a = d * Qc_of_Z (Num.trunc (a / d)) + a %% d.
Proof. unfold Num.rem. ring. Qed.

Lemma rem_bounds a d : 0 ≤ a → 0 < d → 0 ≤ a %% d ∧ a %% d < d.
Proof.
  intros Ha Hd.
  assert (Hne : d ≠ 0) by (intros ->; by apply (Qclt_not_eq 0 0)).
  pose proof (div_nonneg a d Ha Hd) as Hq.
  pose proof (trunc_le _ Hq) as Hlo. pose proof (trunc_lt _ Hq) as Hhi.
  unfold Num.rem. pose proof (eq_sym (Qcmult_div_r a d Hne)) as Heq.
  remember (a / d) as q eqn:Eq. clear Eq.
  set (k := Qc_of_Z (Num.trunc q)) in *. rewrite Heq. clear Heq.
  split.
  - apply (Qcle_minus_iff (d * k) (d * q)).
    apply Qcmult_le_mono_nonneg_l; [by apply Qclt_le_weak|done].
  - apply (Qcplus_lt_mono_r _ _ (d * k)).
    replace (d * q - d * k + d * k) with (d * q) by ring.
    replace (d + d * k) with (d * (k + 1)) by ring.
    by apply Qcmult_lt_mono_pos_l.
Qed.

Lemma Math_min_le_l a b : Num.Math_min a b ≤ a.
Proof.
  unfold Num.Math_min. case_bool_decide as H; [done|].
  by apply Qclt_le_weak, Qclt_nge.
Qed.
Lemma Math_min_le_r a b : Num.Math_min a b ≤ b.
Proof. unfold Num.Math_min. by case_bool_decide. Qed.
Lemma Math_min_glb a b c : c ≤ a → c ≤ b → c ≤ Num.Math_min a b.
Proof. unfold Num.Math_min. by case_bool_decide. Qed.
Lemma Math_max_ge_l a b : a ≤ Num.Math_max a b.
Proof. unfold Num.Math_max. by case_bool_decide. Qed.
Lemma Math_max_lub a b c : a ≤ c → b ≤ c → Num.Math_max a b ≤ c.
Proof. unfold Num.Math_max. by case_bool_decide. Qed.
Lemma Math_min_eq_r a b : b ≤ a → Num.Math_min a b = b.
Proof.
  intros H. unfold Num.Math_min. case_bool_decide; [|done].
  by apply (anti_symm Qcle).
Qed.
Lemma Math_min_eq_l a b : a ≤ b → Num.Math_min a b = a.
Proof. intros H. unfold Num.Math_min. by case_bool_decide. Qed.
Lemma Math_max_eq_l a b : b ≤ a → Num.Math_max a b = a.
Proof.
  intros H. unfold Num.Math_max. case_bool_decide; [|done].
  by apply (anti_symm Qcle).
Qed.
Lemma Math_max_eq_r a b : a ≤ b → Num.Math_max a b = b.
Proof. intros H. unfold Num.Math_max. by case_bool_decide. Qed.
End numbers.

Section lerp.
Implicit Types a b t : Qc.

(** The body of three.js's [lerp] is [(1 - t) * x + t * y]; on exact
    numbers it is the formula of the specification. *)
Lemma lerp_threejs_form a b t : THREE.lerp a b t = (1 - t) * a + t * b.
Proof. unfold THREE.lerp. ring. Qed.

Lemma lerp_0 a b : THREE.lerp a b 0 = a.
Proof. unfold THREE.lerp. ring. Qed.

Lemma lerp_1 a b : THREE.lerp a b 1 = b.
Proof. unfold THREE.lerp. ring. Qed.
End lerp.

(** ** Loops *)

Section loops.
Context {A B C : Type}.

Lemma for_loop_paired (l1 : list A) (l2 : list B)
    (f : nat → A → B → list C) (body : nat → list C → result (list C)) :
  (∀ j acc a b, l1 !! j = Some a → l2 !! j = Some b →
                body j acc = Ok (acc ++ f j a b)) →
  ∀ n i acc, (i + n = length l1 `min` length l2)%nat →
    for_loop n i body acc = Ok (acc ++ paired f i (drop i l1) (drop i l2)).
Proof.
  intros Hbody n. induction n as [|n IH]; intros i acc Hn; simpl.
  - assert (Hd : drop i l1 = [] ∨ drop i l2 = []).
    { destruct (decide (length l1 ≤ length l2)%nat);
        [left|right]; apply drop_ge; lia. }
    destruct Hd as [-> | ->]; [|destruct (drop i l1)]; simpl;
      by rewrite app_nil_r.
  - destruct (lookup_lt_is_Some_2 l1 i) as [a Ha]; [lia|].
    destruct (lookup_lt_is_Some_2 l2 i) as [b Hb]; [lia|].
    rewrite (Hbody _ _ _ _ Ha Hb). simpl.
    rewrite IH by lia.
    rewrite (drop_S l1 a i Ha), (drop_S l2 b i Hb). simpl.
    by rewrite <- app_assoc.
Qed.

Lemma paired_zip_with (g : A → B → C) (l1 : list A) (l2 : list B) i :
  paired (λ _ a b, [g a b]) i l1 l2 = zip_with g l1 l2.
Proof.
  revert l2 i. induction l1 as [|a l1 IH]; intros [|b l2] i; simpl; try done.
  by rewrite IH.
Qed.

Lemma paired_length (f : nat → A → B → list C) (l1 : list A) (l2 : list B) i :
  (∀ k a b, l1 !! k = Some a → l2 !! k = Some b →
            length (f (i + k)%nat a b) = 1%nat) →
  length (paired f i l1 l2) = (length l1 `min` length l2)%nat.
Proof.
  revert l2 i. induction l1 as [|a l1 IH]; intros [|b l2] i H; simpl; try done.
  rewrite length_app, IH.
  - specialize (H 0%nat a b eq_refl eq_refl).
    rewrite Nat.add_0_r in H. by rewrite H.
  - intros k a' b' Ha Hb.
    replace (S i + k)%nat with (i + S k)%nat by lia. by apply H.
Qed.

Lemma paired_lookup (f : nat → A → B → list C) (g : nat → A → B → C)
    (l1 : list A) (l2 : list B) i k a b :
  (∀ k a b, l1 !! k = Some a → l2 !! k = Some b →
            f (i + k)%nat a b = [g (i + k)%nat a b]) →
  l1 !! k = Some a → l2 !! k = Some b →
  paired f i l1 l2 !! k = Some (g (i + k)%nat a b).
Proof.
  revert l2 i k.
  induction l1 as [|a1 l1 IH]; intros [|b1 l2] i k H Ha Hb; try done.
  simpl. pose proof (H 0%nat a1 b1 eq_refl eq_refl) as H0.
  rewrite Nat.add_0_r in H0. rewrite H0. destruct k as [|k]; simpl in *.
  - rewrite Nat.add_0_r. congruence.
  - replace (i + S k)%nat with (S i + k)%nat by lia. apply IH; [|done..].
    intros k' a' b' Ha' Hb'.
    replace (S i + k')%nat with (i + S k')%nat by lia. by apply H.
Qed.

End loops.

(** ** The interpolators *)

Lemma interpolatePoints_zip (points1 points2 : list Point3) (t : Qc) :
  interpolatePoints (Some points1) (Some points2) t
  = Ok (zip_with (λ p1 p2, lerpPoint3 p1 p2 t) points1 points2).
Proof.
  unfold interpolatePoints. simpl.
  rewrite (for_loop_paired points1 points2 (λ _ p1 p2, [lerpPoint3 p1 p2 t]));
    [|by intros j acc a b -> ->|lia].
  simpl. by rewrite !drop_0, paired_zip_with.
Qed.

Lemma interpolateBezierCurves_paired (curves1 curves2 : list Curve.t) (t : Qc) :
  interpolateBezierCurves curves1 curves2 t
  = Ok (paired (λ i c1 c2, option_list (pairedSegment t i c1 c2)) 0
               curves1 curves2).
Proof.
  unfold interpolateBezierCurves.
  rewrite (for_loop_paired curves1 curves2
             (λ i c1 c2, option_list (pairedSegment t i c1 c2))); [|..|lia].
  { by rewrite !drop_0. }
  intros j acc c1 c2 -> ->. simpl. unfold pairedSegment.
  destruct (Curve.points c1) as [points1|]; simpl; [|by rewrite app_nil_r].
  destruct (Curve.points c2) as [points2|]; simpl; [|by rewrite app_nil_r].
  rewrite (for_loop_paired points1 points2
             (λ _ p1 p2, [lerpControlPoint p1 p2 t]));
    [|by intros k acc' a b -> ->|lia].
  simpl. by rewrite !drop_0, paired_zip_with.
Qed.

(** The interpolators never throw on arrays. *)
Lemma interpolateBezierCurves_total (curves1 curves2 : list Curve.t) (t : Qc) :
  ∃ out, interpolateBezierCurves curves1 curves2 t = Ok out.
Proof. rewrite interpolateBezierCurves_paired. eauto. Qed.

Lemma pairedSegment_points (t : Qc) (i : nat) (c1 c2 : Curve.t)
    (points1 points2 : list ControlPoint) :
  Curve.points c1 = Some points1 → Curve.points c2 = Some points2 →
  ∃ c, pairedSegment t i c1 c2 = Some c
       ∧ Curve.points c
         = Some (zip_with (λ p1 p2, lerpControlPoint p1 p2 t) points1 points2).
Proof. intros H1 H2. unfold pairedSegment. rewrite H1, H2. simpl. eauto. Qed.

Lemma interpolateBezierCurves_lookup (curves1 curves2 : list Curve.t) (t : Qc) :
  Forall has_points curves1 → Forall has_points curves2 →
  ∃ out,
    interpolateBezierCurves curves1 curves2 t = Ok out
    ∧ length out = (length curves1 `min` length curves2)%nat
    ∧ ∀ i c1 c2, curves1 !! i = Some c1 → curves2 !! i = Some c2 →
        out !! i = pairedSegment t i c1 c2.
Proof.
  intros Hp1 Hp2. rewrite interpolateBezierCurves_paired.
  eexists; split; [done|].
  assert (Hone : ∀ k c1 c2, curves1 !! k = Some c1 → curves2 !! k = Some c2 →
            option_list (pairedSegment t (0 + k) c1 c2)
            = [default c1 (pairedSegment t (0 + k) c1 c2)]).
  { intros k c1 c2 H1 H2.
    destruct (Forall_lookup_1 _ _ _ _ Hp1 H1) as [points1 E1].
    destruct (Forall_lookup_1 _ _ _ _ Hp2 H2) as [points2 E2].
    destruct (pairedSegment_points t (0 + k) c1 c2 _ _ E1 E2) as (c & -> & _).
    done. }
  split.
  - apply paired_length. intros k c1 c2 H1 H2. by rewrite (Hone k c1 c2).
  - intros i c1 c2 H1 H2.
    rewrite (paired_lookup _ (λ j a b, default a (pairedSegment t j a b))
               _ _ 0 i c1 c2 Hone H1 H2).
    destruct (Forall_lookup_1 _ _ _ _ Hp1 H1) as [points1 E1].
    destruct (Forall_lookup_1 _ _ _ _ Hp2 H2) as [points2 E2].
    change (0 + i)%nat with i.
    by destruct (pairedSegment_points t i c1 c2 _ _ E1 E2) as (c & -> & _).
Qed.

(** C6.  Two distinct bracketing frames that both carry curve segments and
    have different frame numbers are interpolated at the factor
    [t = (targetFrame - prev.frame) / (next.frame - prev.frame)]: the result
    has [min] of the two segment counts (the extra segments of the longer
    side are dropped), its segment [i] pairs segment [i] of either side and
    has [min] of the two control-point counts, and its control point [j] is
    the component-wise [a + (b-a)*t] of the knots, in-handles and
    out-handles of the two control points [j].  Two single-point segments
    with knots (0,0,0) and (10,0,0) give the knot (5,0,0) at [t = 1/2]. *)
Theorem curve_frames_interpolated_pairwise :
  (∀ (prevFrame nextFrame : nat * Frame.t) (targetFrame : Qc)
     (curves1 curves2 : list Curve.t),
     prevFrame.1 ≠ nextFrame.1 →
     Frame.frame prevFrame.2 ≠ Frame.frame nextFrame.2 →
     Frame.curves prevFrame.2 = Some curves1 →
     Frame.curves nextFrame.2 = Some curves2 →
     Forall has_points curves1 → Forall has_points curves2 →
     let t := (targetFrame - Frame.frame prevFrame.2)
              / (Frame.frame nextFrame.2 - Frame.frame prevFrame.2) in
     ∃ out,
       interpolateFrames prevFrame nextFrame targetFrame = Ok (DCurves out)
       ∧ interpolateBezierCurves curves1 curves2 t = Ok out
       ∧ length out = (length curves1 `min` length curves2)%nat
       ∧ ∀ i c1 c2 points1 points2,
           curves1 !! i = Some c1 → curves2 !! i = Some c2 →
           Curve.points c1 = Some points1 → Curve.points c2 = Some points2 →
           ∃ c points,
             out !! i = Some c ∧ Curve.points c = Some points
             ∧ length points = (length points1 `min` length points2)%nat
             ∧ ∀ j p1 p2, points1 !! j = Some p1 → points2 !! j = Some p2 →
                 points !! j
                 = Some {| knot :=
                             {| x := x (knot p1) + (x (knot p2) - x (knot p1)) * t;
                                y := y (knot p1) + (y (knot p2) - y (knot p1)) * t;
                                z := z (knot p1) + (z (knot p2) - z (knot p1)) * t |};
                           inHandle := lerpPoint3 (inHandle p1) (inHandle p2) t;
                           outHandle := lerpPoint3 (outHandle p1) (outHandle p2) t |})
  ∧ interpolateBezierCurves
      [ {| Curve.splineIndex := None; Curve.points := Some [K 0 0 0] |} ]
      [ {| Curve.splineIndex := None; Curve.points := Some [K 10 0 0] |} ]
      (1 / 2)
    = Ok [ {| Curve.splineIndex := Some 1; Curve.points := Some [K 5 0 0] |} ].
Proof.
  split; [|compute_done].
  intros [i1 f1] [i2 f2] targetFrame curves1 curves2; simpl.
  intros Hne Hfr E1 E2 Hp1 Hp2.
  destruct (interpolateBezierCurves_lookup curves1 curves2
              ((targetFrame - Frame.frame f1) / (Frame.frame f2 - Frame.frame f1))
              Hp1 Hp2) as (out & Hout & Hlen & Hlook).
  exists out. split; [|split; [done|split; [done|]]].
  - unfold interpolateFrames. simpl.
    rewrite bool_decide_eq_false_2 by done.
    rewrite bool_decide_eq_false_2.
    + by rewrite E1, E2, Hout.
    + intros H0. apply Hfr. symmetry.
      apply (inj (λ a, a + - Frame.frame f1)).
      rewrite Qcplus_opp_r. exact H0.
  - intros i c1 c2 points1 points2 H1 H2 P1 P2.
    destruct (pairedSegment_points
                ((targetFrame - Frame.frame f1) / (Frame.frame f2 - Frame.frame f1))
                i c1 c2 _ _ P1 P2) as (c & Hc & Hpts).
    exists c, (zip_with (λ p1 p2, lerpControlPoint p1 p2
                 ((targetFrame - Frame.frame f1) / (Frame.frame f2 - Frame.frame f1)))
                 points1 points2).
    split; [by rewrite (Hlook i c1 c2 H1 H2)|].
    split; [done|]. split; [apply length_zip_with|].
    intros j p1 p2 Hj1 Hj2. rewrite lookup_zip_with, Hj1, Hj2. done.
Qed.

Lemma curve_frames_interpolated_pairwise_witness :
  ∃ out,
    interpolateFrames
      (0%nat, Frame.mk 0 (Some [Curve.mk None (Some [K 0 0 0])]) None)
      (1%nat, Frame.mk (Qc_of_Z 30) (Some [Curve.mk None (Some [K 10 0 0])]) None)
      (Qc_of_Z 15)
    = Ok (DCurves out) ∧ length out = 1%nat.
Proof.
  destruct (proj1 curve_frames_interpolated_pairwise
              (0%nat, Frame.mk 0 (Some [Curve.mk None (Some [K 0 0 0])]) None)
              (1%nat, Frame.mk (Qc_of_Z 30)
                        (Some [Curve.mk None (Some [K 10 0 0])]) None)
              (Qc_of_Z 15)
              [Curve.mk None (Some [K 0 0 0])]
              [Curve.mk None (Some [K 10 0 0])])
    as (out & H1 & _ & H2 & _).
  - simpl. lia.
  - simpl. apply (bool_decide_unpack _). vm_compute. reflexivity.
  - reflexivity.
  - reflexivity.
  - repeat constructor. by eexists.
  - repeat constructor. by eexists.
  - exists out. split; [exact H1|exact H2].
Defined.

(** ** What [updateSplineGeometry] and [updateSplines] touch *)

Lemma updateSplineGeometry_cases (md : option Metadata.t) (spline : Spline)
    (time : Qc) :
  updateSplineGeometry md spline time = Ok spline
  ∨ (∃ positions,
       updateSplineGeometry md spline time
       = Ok (setAttribute_position spline positions))
  ∨ ∃ e, updateSplineGeometry md spline time = Throw e.
Proof.
  unfold updateSplineGeometry. destruct md as [md|]; simpl; [|by eauto].
  destruct (scanFrames _ _ _ _) as [[prevFrame|] [nextFrame|]]; simpl;
    [| | |by left];
    (destruct (interpolateFrames _ _ _) as [d|e]; simpl; [|by eauto];
     destruct (buildPositions _ _) as [positions|e]; simpl; by eauto).
Qed.

Lemma updateSplineGeometry_static md spline time spline' :
  updateSplineGeometry md spline time = Ok spline' →
  track_static spline' = track_static spline.
Proof.
  intros H.
  destruct (updateSplineGeometry_cases md spline time)
    as [E | [[positions E] | [e E]]]; rewrite E in H; by simplify_eq.
Qed.

Lemma updateSplineGeometry_no_frames md spline time :
  frames spline = [] →
  updateSplineGeometry md spline time = Ok spline
  ∨ updateSplineGeometry md spline time = Throw TypeError.
Proof.
  intros H. unfold updateSplineGeometry. rewrite H.
  destruct md; simpl; by eauto.
Qed.

Lemma updateSplines_forEach_static md time (l : list Spline) :
  track_static <$> (updateSplines_forEach md time l).1 = track_static <$> l.
Proof.
  induction l as [|spline l IH]; simpl; [done|].
  destruct (updateSplineGeometry md spline time) as [spline'|e] eqn:E; [|done].
  destruct (updateSplines_forEach md time l) as [l' c]. simpl in *.
  f_equal; [by apply (updateSplineGeometry_static _ _ _ _ E)|exact IH].
Qed.

Lemma updateSplines_forEach_no_frames md time (l : list Spline) i spline :
  l !! i = Some spline → frames spline = [] →
  (updateSplines_forEach md time l).1 !! i = Some spline.
Proof.
  revert i. induction l as [|s l IH]; intros i Hi Hf; [done|]. simpl.
  destruct (updateSplineGeometry md s time) as [s'|e] eqn:E; [|done].
  destruct (updateSplines_forEach md time l) as [l' c] eqn:El. simpl in *.
  destruct i as [|i]; simpl in *.
  - simplify_eq.
    destruct (updateSplineGeometry_no_frames md spline time Hf); congruence.
  - by apply IH.
Qed.

(** [updateSplines] writes nothing but the position buffers. *)
Lemma updateSplines_frame (this : SplineLoader) :
  let this' := (updateSplines this).1 in
  currentTime this' = currentTime this ∧ duration this' = duration this
  ∧ isPlaying this' = isPlaying this ∧ loop this' = loop this
  ∧ speed this' = speed this ∧ metadata this' = metadata this
  ∧ track_static <$> splines this' = track_static <$> splines this.
Proof.
  unfold updateSplines.
  pose proof (updateSplines_forEach_static (metadata this) (currentTime this)
                (splines this)) as H.
  destruct (updateSplines_forEach _ _ _) as [l c]. simpl in *. by rewrite H.
Qed.

Lemma updateSplines_no_frames (this : SplineLoader) i spline :
  splines this !! i = Some spline → frames spline = [] →
  splines (updateSplines this).1 !! i = Some spline.
Proof.
  intros Hi Hf. unfold updateSplines.
  pose proof (updateSplines_forEach_no_frames (metadata this)
                (currentTime this) (splines this) i spline Hi Hf) as H.
  by destruct (updateSplines_forEach _ _ _) as [l c].
Qed.

(** ** The playback controller *)

Lemma Qclt_ne_0 (d : Qc) : 0 < d → d ≠ 0.
Proof. intros H ->. by apply (Qclt_not_eq 0 0). Qed.

(** [update] while playing in a loop: the time is advanced and wrapped, the
    other fields stay. *)
Lemma update_looping (this : SplineLoader) (deltaTime : Qc) :
  loop this = true → isPlaying this = true → duration this ≠ 0 →
  let this' := (update deltaTime this).1 in
  currentTime this'
  = (currentTime this + deltaTime * speed this) %% duration this
  ∧ duration this' = duration this ∧ isPlaying this' = true
  ∧ loop this' = true ∧ speed this' = speed this.
Proof.
  intros Hloop Hplay Hdur. unfold update. rewrite Hplay. simpl.
  rewrite bool_decide_eq_false_2 by done. simpl. rewrite Hloop.
  match goal with |- context [updateSplines ?s] =>
    pose proof (updateSplines_frame s) as H end.
  simpl in H. destruct H as (-> & -> & -> & -> & -> & _). done.
Qed.

(** [update] while playing without looping: the time is advanced and
    clamped, and playback ends when it has reached [duration]. *)
Lemma update_not_looping (this : SplineLoader) (deltaTime : Qc) :
  loop this = false → isPlaying this = true → duration this ≠ 0 →
  let advanced := currentTime this + deltaTime * speed this in
  let this' := (update deltaTime this).1 in
  currentTime this' = Num.Math_min advanced (duration this)
  ∧ duration this' = duration this
  ∧ isPlaying this' = negb (bool_decide (duration this ≤ advanced)).
Proof.
  intros Hloop Hplay Hdur. unfold update. rewrite Hplay. simpl.
  rewrite bool_decide_eq_false_2 by done. simpl. rewrite Hloop.
  match goal with |- context [updateSplines ?s] =>
    pose proof (updateSplines_frame s) as H end.
  destruct H as (-> & -> & -> & _).
  set (advanced := currentTime this + deltaTime * speed this).
  destruct (decide (duration this ≤ advanced)) as [Hle|Hlt].
  - rewrite (bool_decide_eq_true_2 (duration this ≤ advanced)) by done.
    rewrite (Math_min_eq_r _ _ Hle).
    rewrite bool_decide_eq_true_2 by done. done.
  - rewrite (bool_decide_eq_false_2 (duration this ≤ advanced)) by done.
    assert (advanced ≤ duration this) as Hle
      by by apply Qclt_le_weak, Qclt_nge.
    rewrite (Math_min_eq_l _ _ Hle).
    rewrite bool_decide_eq_false_2 by done. simpl. by rewrite Hplay.
Qed.

(** C4.  While playing in a loop with a positive duration, [update] sets
    [currentTime] to [(currentTime + deltaTime*speed) % duration]; when the
    advanced time is not negative the result lies in [[0, duration)] and
    differs from the advanced time by a whole number of durations, however
    large [deltaTime] is.  With duration 10 and speed 1, two calls
    [update(7)] from time 0 leave [currentTime = 4]. *)
Theorem looping_update_wraps :
  (∀ (this : SplineLoader) (deltaTime : Qc),
     loop this = true → isPlaying this = true → 0 < duration this →
     let advanced := currentTime this + deltaTime * speed this in
     let this' := (update deltaTime this).1 in
     currentTime this' = advanced %% duration this
     ∧ (0 ≤ advanced →
        0 ≤ currentTime this' ∧ currentTime this' < duration this
        ∧ ∃ k : Z, (0 ≤ k)%Z
            ∧ advanced = duration this * Qc_of_Z k + currentTime this'))
  ∧ (∀ this : SplineLoader,
       loop this = true → isPlaying this = true →
       duration this = Qc_of_Z 10 → speed this = 1 → currentTime this = 0 →
       currentTime (update (Qc_of_Z 7) (update (Qc_of_Z 7) this).1).1
       = Qc_of_Z 4).
Proof.
  split.
  - intros this deltaTime Hloop Hplay Hdur advanced this'.
    destruct (update_looping this deltaTime Hloop Hplay (Qclt_ne_0 _ Hdur))
      as (Ht & _). fold this' advanced in Ht.
    split; [done|]. intros Hadv. rewrite Ht.
    destruct (rem_bounds advanced (duration this) Hadv Hdur) as [Hlo Hhi].
    split; [done|]. split; [done|].
    exists (Num.trunc (advanced / duration this)). split.
    + apply trunc_nonneg. by apply div_nonneg.
    + apply rem_decompose.
  - intros this Hloop Hplay Hdur Hspeed Htime.
    assert (Hne : duration this ≠ 0) by (rewrite Hdur; compute_done).
    destruct (update_looping this (Qc_of_Z 7) Hloop Hplay Hne)
      as (Ht1 & Hd1 & Hp1 & Hl1 & Hs1).
    rewrite <- Hd1 in Hne.
    destruct (update_looping _ (Qc_of_Z 7) Hl1 Hp1 Hne) as (Ht2 & _).
    rewrite Ht2, Ht1, Hd1, Hs1, Hdur, Hspeed, Htime. compute_done.
Qed.

Lemma looping_update_wraps_witness :
  currentTime (update (Qc_of_Z 25) (loader [] 0 10 true true)).1 = Qc_of_Z 5.
Proof.
  destruct (proj1 looping_update_wraps (loader [] 0 10 true true) (Qc_of_Z 25))
    as [H _].
  - reflexivity.
  - reflexivity.
  - apply (bool_decide_unpack _). vm_compute. reflexivity.
  - rewrite H. apply (bool_decide_unpack _). vm_compute. reflexivity.
Defined.

(** C5.  While playing without looping with a positive duration, [update]
    sets [currentTime] to [min(currentTime + deltaTime*speed, duration)],
    which is at most [duration], and [isPlaying] becomes false exactly when
    the advanced time has reached [duration], that is, exactly when the new
    [currentTime] is [duration].  With duration 5 and speed 1, [update(8)]
    from time 0 gives [currentTime = 5] and [isPlaying = false]. *)
Theorem non_looping_update_clamps :
  (∀ (this : SplineLoader) (deltaTime : Qc),
     loop this = false → isPlaying this = true → 0 < duration this →
     let advanced := currentTime this + deltaTime * speed this in
     let this' := (update deltaTime this).1 in
     currentTime this' = Num.Math_min advanced (duration this)
     ∧ currentTime this' ≤ duration this
     ∧ (isPlaying this' = false ↔ duration this ≤ advanced)
     ∧ (isPlaying this' = false ↔ currentTime this' = duration this))
  ∧ (∀ this : SplineLoader,
       loop this = false → isPlaying this = true →
       duration this = Qc_of_Z 5 → speed this = 1 → currentTime this = 0 →
       currentTime (update (Qc_of_Z 8) this).1 = Qc_of_Z 5
       ∧ isPlaying (update (Qc_of_Z 8) this).1 = false).
Proof.
  split.
  - intros this deltaTime Hloop Hplay Hdur advanced this'.
    destruct (update_not_looping this deltaTime Hloop Hplay (Qclt_ne_0 _ Hdur))
      as (Ht & _ & Hp). fold this' advanced in Ht, Hp.
    split; [done|]. split; [rewrite Ht; apply Math_min_le_r|].
    assert (Hiff : isPlaying this' = false ↔ duration this ≤ advanced).
    { rewrite Hp. case_bool_decide as Hle; simpl; split; intros H';
        first [done | by destruct Hle]. }
    split; [exact Hiff|]. rewrite Hiff, Ht. clear Hp Hiff Ht. split.
    + apply Math_min_eq_r.
    + unfold Num.Math_min. case_bool_decide as Hle.
      * intros <-. apply Qcle_refl.
      * intros _. by apply Qclt_le_weak, Qclt_nge.
  - intros this Hloop Hplay Hdur Hspeed Htime.
    assert (Hne : duration this ≠ 0) by (rewrite Hdur; compute_done).
    destruct (update_not_looping this (Qc_of_Z 8) Hloop Hplay Hne)
      as (Ht & _ & Hp).
    rewrite Ht, Hp, Hdur, Hspeed, Htime. split; compute_done.
Qed.

Lemma non_looping_update_clamps_witness :
  currentTime (update (Qc_of_Z 2) (loader [] 1 5 true false)).1 = Qc_of_Z 3
  ∧ isPlaying (update (Qc_of_Z 2) (loader [] 1 5 true false)).1 = true.
Proof.
  destruct (proj1 non_looping_update_clamps (loader [] 1 5 true false)
              (Qc_of_Z 2)) as (H1 & _ & H2 & _).
  - reflexivity.
  - reflexivity.
  - apply (bool_decide_unpack _). vm_compute. reflexivity.
  - split.
    + rewrite H1. apply (bool_decide_unpack _). vm_compute. reflexivity.
    + apply (bool_decide_unpack _). vm_compute. reflexivity.
Defined.

Lemma setTime_time (time : Qc) (this : SplineLoader) :
  currentTime (setTime time this).1
  = Num.Math_max 0 (Num.Math_min time (duration this))
  ∧ duration (setTime time this).1 = duration this.
Proof.
  unfold setTime.
  match goal with |- context [updateSplines ?s] =>
    pose proof (updateSplines_frame s) as H end.
  by destruct H as (-> & -> & _).
Qed.

Lemma clamp_in_range (lo hi v : Qc) :
  lo ≤ hi → lo ≤ Num.Math_max lo (Num.Math_min v hi)
            ∧ Num.Math_max lo (Num.Math_min v hi) ≤ hi.
Proof.
  intros H. split; [apply Math_max_ge_l|].
  apply Math_max_lub; [done|apply Math_min_le_r].
Qed.

Lemma setTime_in_range (time : Qc) (this : SplineLoader) :
  0 ≤ duration this → time_in_range (setTime time this).1.
Proof.
  intros H. unfold time_in_range.
  destruct (setTime_time time this) as [-> ->]. by apply clamp_in_range.
Qed.

(** C7, as stated, fails: [update] has no lower clamp, so a negative
    [deltaTime] (or speed) takes [currentTime] below 0, with or without
    looping. *)
Lemma update_negative_delta_leaves_range :
  time_in_range (loader [] 0 10 true true)
  ∧ ¬ time_in_range (run (Update (Qc_of_Z (-1))) (loader [] 0 10 true true)).1
  ∧ ¬ time_in_range (run (Update (Qc_of_Z (-1))) (loader [] 0 10 true false)).1.
Proof.
  split; [split; compute_done|].
  split; intros [H _]; revert H; compute_done.
Qed.

(** C7, amended.  From a state with [currentTime ∈ [0, duration]], every
    public operation leads to a state with [currentTime ∈ [0, duration]],
    provided that [update] is called with [deltaTime * speed ≥ 0]. *)
Theorem time_stays_in_range (this : SplineLoader) (c : Call) :
  time_in_range this →
  (∀ deltaTime, c = Update deltaTime → 0 ≤ deltaTime * speed this) →
  time_in_range (run c this).1.
Proof.
  intros [Hlo Hhi] Hdelta.
  assert (Hdur : 0 ≤ duration this) by by etrans.
  destruct c as [| | |time|progress|deltaTime]; simpl.
  - done.
  - done.
  - unfold stop.
    match goal with |- context [updateSplines ?s] =>
      pose proof (updateSplines_frame s) as H end.
    unfold time_in_range. by destruct H as (-> & -> & _).
  - by apply setTime_in_range.
  - by apply setTime_in_range.
  - specialize (Hdelta deltaTime eq_refl).
    assert (Hadv : 0 ≤ currentTime this + deltaTime * speed this)
      by by apply Qcplus_nonneg_nonneg.
    destruct (isPlaying this) eqn:Hplay;
      [|by unfold update; rewrite Hplay].
    destruct (decide (duration this = 0)) as [Hz|Hnz];
      [by unfold update; rewrite Hplay, bool_decide_eq_true_2|].
    assert (Hpos : 0 < duration this).
    { apply Qclt_nge. intros Hle. apply Hnz. by apply (anti_symm Qcle). }
    unfold time_in_range. destruct (loop this) eqn:Hloop.
    + destruct (update_looping this deltaTime Hloop Hplay Hnz)
        as (-> & -> & _).
      destruct (rem_bounds _ _ Hadv Hpos) as [H1 H2].
      split; [done|by apply Qclt_le_weak].
    + destruct (update_not_looping this deltaTime Hloop Hplay Hnz)
        as (-> & -> & _).
      split; [by apply Math_min_glb|apply Math_min_le_r].
Qed.

Lemma time_stays_in_range_witness :
  time_in_range (run (Update (Qc_of_Z 7)) (loader [] 7 10 true true)).1.
Proof.
  apply (time_stays_in_range (loader [] 7 10 true true) (Update (Qc_of_Z 7))).
  - split; apply (bool_decide_unpack _); vm_compute; reflexivity.
  - intros deltaTime H. injection H as <-.
    apply (bool_decide_unpack _). vm_compute. reflexivity.
Defined.

(** C8.  [setProgress(p)] is [setTime(clamp(p) * duration)] with
    [clamp(p) = max(0, min(1, p))] in [[0, 1]]; the state and the position
    buffers (and the completion) after [setProgress(-1)] are those after
    [setProgress(0)], and after [setProgress(2)] those after
    [setProgress(1)]. *)
Theorem setProgress_clamps (this : SplineLoader) :
  (∀ progress : Qc,
     let clamped := Num.Math_max 0 (Num.Math_min 1 progress) in
     setProgress progress this = setTime (clamped * duration this) this
     ∧ 0 ≤ clamped ∧ clamped ≤ 1
     ∧ setProgress progress this = setProgress clamped this)
  ∧ setProgress (Qc_of_Z (-1)) this = setProgress 0 this
  ∧ setProgress (Qc_of_Z 2) this = setProgress 1 this.
Proof.
  split; [|split].
  - intros progress clamped. split; [done|].
    assert (H0 : 0 ≤ clamped) by apply Math_max_ge_l.
    assert (H1 : clamped ≤ 1).
    { apply Math_max_lub; [compute_done|apply Math_min_le_l]. }
    split; [done|]. split; [done|].
    unfold setProgress at 2.
    by rewrite (Math_min_eq_r 1 clamped H1), (Math_max_eq_r 0 clamped H0).
  - unfold setProgress.
    replace (Num.Math_max 0 (Num.Math_min 1 (Qc_of_Z (-1))))
      with (Num.Math_max 0 (Num.Math_min 1 0)) by compute_done.
    done.
  - unfold setProgress.
    replace (Num.Math_max 0 (Num.Math_min 1 (Qc_of_Z 2)))
      with (Num.Math_max 0 (Num.Math_min 1 1)) by compute_done.
    done.
Qed.

(** C9.  A track without keyframes keeps its position buffer:
    [updateSplineGeometry] returns the track as it was, for every time, and
    the track is the same after every public operation, whatever happens to
    the other tracks. *)
Theorem no_frames_buffer_untouched
    (this : SplineLoader) (i : nat) (spline : Spline) :
  splines this !! i = Some spline → frames spline = [] →
  (∀ (md : Metadata.t) (time : Qc),
     updateSplineGeometry (Some md) spline time = Ok spline)
  ∧ (∀ c : Call, splines (run c this).1 !! i = Some spline).
Proof.
  intros Hi Hf. split.
  - intros md time. unfold updateSplineGeometry. by rewrite Hf.
  - intros c. destruct c as [| | |time|progress|deltaTime]; simpl; try done.
    + by apply updateSplines_no_frames.
    + by apply updateSplines_no_frames.
    + by apply updateSplines_no_frames.
    + unfold update. destruct (_ || _); [done|].
      apply updateSplines_no_frames; [|done].
      by destruct (loop _); [|case_bool_decide].
Qed.

Lemma no_frames_buffer_untouched_witness :
  splines (run (SetTime 1)
             (loader [track [] true;
                      track [Frame.mk 0 None (Some [P 1 2 3])] false]
                     0 1 true true)).1 !! 0%nat
  = Some (track [] true).
Proof.
  apply (no_frames_buffer_untouched
           (loader [track [] true;
                    track [Frame.mk 0 None (Some [P 1 2 3])] false]
                   0 1 true true)
           0%nat (track [] true)).
  - reflexivity.
  - reflexivity.
Defined.

(** C10.  [setTime] and [setProgress] change nothing but [currentTime] and
    the position buffers: [isPlaying], [loop], [speed], [duration],
    [metadata] and, for every track, its name, frames, material, mesh (with
    its visibility) and closed flag are as before. *)
Theorem scrubbing_changes_time_and_buffers_only
    (this : SplineLoader) (time progress : Qc) :
  same_but_time_and_buffers this (setTime time this).1
  ∧ same_but_time_and_buffers this (setProgress progress this).1.
Proof.
  unfold same_but_time_and_buffers, setProgress, setTime.
  split;
    match goal with |- context [updateSplines ?s] =>
      pose proof (updateSplines_frame s) as H end;
    by destruct H as (_ & -> & -> & -> & -> & -> & ->).
Qed.

(** ** Tessellation and the position buffer *)

(** With two control points or more, one arc of [segments + 1] samples is
    emitted for every pair of consecutive control points. *)
Lemma generateBezierCurve_arcs (bezierPoints : list ControlPoint) (segments : nat) :
  (2 ≤ length bezierPoints)%nat →
  generateBezierCurve (Some bezierPoints) segments
  = Ok (paired (λ _ current next,
                  THREE.getPoints
                    (THREE.mkCurve (knot current) (outHandle current)
                                   (inHandle next) (knot next)) segments)
               0 bezierPoints (tail bezierPoints)).
Proof.
  intros Hlen. unfold generateBezierCurve.
  rewrite bool_decide_eq_false_2 by lia.
  rewrite (for_loop_paired bezierPoints (tail bezierPoints)
             (λ _ current next,
                THREE.getPoints
                  (THREE.mkCurve (knot current) (outHandle current)
                                 (inHandle next) (knot next)) segments)).
  - simpl. rewrite bool_decide_eq_false_2 by lia. by rewrite !drop_0.
  - intros j acc a b Ha Hb. rewrite lookup_tail in Hb.
    rewrite Nat.add_1_r, Ha, Hb. done.
  - destruct bezierPoints; cbn [length tail] in *; lia.
Qed.

Lemma generateBezierCurve_total (bezierPoints : option (list ControlPoint))
    (segments : nat) :
  ∃ curvePoints, generateBezierCurve bezierPoints segments = Ok curvePoints.
Proof.
  destruct bezierPoints as [l|]; [|by eexists].
  destruct (decide (2 ≤ length l)%nat) as [H|H].
  - rewrite generateBezierCurve_arcs by done. by eexists.
  - unfold generateBezierCurve. rewrite bool_decide_eq_true_2 by lia.
    by eexists.
Qed.

(** The second test of [interpolatedData] repeats the first: the branch for
    raw points is taken in no case. *)
Lemma point_branch_unreachable (interpolatedData : Data) :
  negb (truthy interpolatedData && Array_isArray interpolatedData)
  && (truthy interpolatedData && Array_isArray interpolatedData) = false.
Proof. by destruct interpolatedData. Qed.

Lemma forEach_points_skipped (ps : list Point3) (positions : list Qc) :
  forEach (EPoint <$> ps)
    (λ curve positions,
       match elem_points curve with
       | Some points =>
           curvePoints ← generateBezierCurve (Some points) default_segments;
           Ok (positions ++ (curvePoints ≫= λ point, [x point; y point; z point]))
       | None => Ok positions
       end)
    positions
  = Ok positions.
Proof. induction ps as [|p ps IH]; simpl; [done|exact IH]. Qed.

(** C1 fails on the code.  A synthetic frame of raw points goes through the
    branch for curve segments, where every point is skipped for having no
    [points] property: the position buffer is empty, whatever the points and
    the closed flag are.  A track with the single frame of points (1,2,3),
    (4,5,6) gets the empty buffer at time 0, not [1,2,3,4,5,6]. *)
Theorem raw_points_give_empty_buffer :
  (∀ (ps : list Point3) (closed : bool),
     buildPositions (DPoints ps) closed = Ok [])
  ∧ ∃ spline',
      updateSplineGeometry (Some md30)
        (track [Frame.mk 0 None (Some [P 1 2 3; P 4 5 6])] false) 0
      = Ok spline'
      ∧ position (geometry spline') = Some []
      ∧ position (geometry spline')
        ≠ Some ([P 1 2 3; P 4 5 6] ≫= λ point, [x point; y point; z point]).
Proof.
  split.
  - intros ps closed. unfold buildPositions. simpl.
    rewrite forEach_points_skipped. simpl. by rewrite andb_false_r.
  - eexists. split; [reflexivity|]. split; [reflexivity|]. simpl. discriminate.
Qed.

(** C2 fails on the code.  The guard [bezierPoints.length < 2] returns the
    empty array for a single control point, before the statement that would
    push its knot: nothing is emitted. *)
Theorem single_control_point_emits_nothing
    (point : ControlPoint) (segments : nat) :
  generateBezierCurve (Some [point]) segments = Ok []
  ∧ generateBezierCurve (Some [point]) segments ≠ Ok [knot point].
Proof. split; [done|]. simpl. discriminate. Qed.

(** ** Exceptions during playback *)

(** The asset of the failing run: one track whose first keyframe carries a
    curve segment and whose second keyframe carries raw points only. *)
Lemma mixed_asset_loads :
  parseSplineData
    {| data_metadata := Some md30;
       data_splines :=
         Some [ {| data_name := "track";
                   data_frames :=
                     [ Frame.mk 0 (Some [Curve.mk None (Some [K 0 0 0; K 3 0 0])]) None;
                       Frame.mk (Qc_of_Z 30) None (Some [P 1 0 0]) ] |} ] |}
    constructor
  = (mixed_loader, Normal).
Proof. compute_done. Qed.

(** C3 fails on the code.  In the loaded state [mixed_loader] the bracket at
    time 1/2 has a frame with curves and a frame with raw points only;
    [interpolatePoints] reads [points1.length] of [undefined], and [setTime],
    [setProgress] and [update] end with a [TypeError]. *)
Theorem mixed_bracket_throws :
  (setTime (1 / 2) mixed_loader).2 = Abrupt TypeError
  ∧ (setProgress (1 / 2) mixed_loader).2 = Abrupt TypeError
  ∧ (update (1 / 2) (play mixed_loader).1).2 = Abrupt TypeError
  ∧ interpolatePoints None (Some [P 1 0 0]) (1 / 2) = Throw TypeError.
Proof. repeat split; compute_done. Qed.

(** What does hold: on tracks whose keyframes all carry raw points, or all
    carry curve segments, a loaded loader never throws. *)

Lemma scanFrames_Forall (Q : Frame.t → Prop) (fs : list Frame.t) (i : nat)
    (targetFrame : Qc) (prevFrame : option (nat * Frame.t)) :
  Forall Q fs → (∀ p, prevFrame = Some p → Q p.2) →
  (∀ p, (scanFrames fs i targetFrame prevFrame).1 = Some p → Q p.2)
  ∧ (∀ p, (scanFrames fs i targetFrame prevFrame).2 = Some p → Q p.2).
Proof.
  intros Hfs. revert i prevFrame.
  induction Hfs as [|f fs Hf Hfs IH]; intros i prevFrame Hprev; simpl.
  - split; [done|]. intros p H. discriminate H.
  - assert (Hprev' : ∀ p,
              (if bool_decide (Frame.frame f ≤ targetFrame)
               then Some (i, f) else prevFrame) = Some p → Q p.2).
    { intros p. case_bool_decide; [|by apply Hprev]. by intros [= <-]. }
    destruct (bool_decide (targetFrame ≤ Frame.frame f)).
    + split; [exact Hprev'|]. simpl. by intros p [= <-].
    + by apply IH.
Qed.

Lemma forEach_total {A S} (l : list A) (body : A → S → result S) (s : S) :
  (∀ a s, ∃ s', body a s = Ok s') → ∃ s', forEach l body s = Ok s'.
Proof.
  intros Hbody. revert s. induction l as [|a l IH]; intros s; simpl.
  - by eexists.
  - destruct (Hbody a s) as [s' ->]. simpl. apply IH.
Qed.

Lemma buildPositions_total (interpolatedData : Data) (closed : bool) :
  ∃ positions, buildPositions interpolatedData closed = Ok positions.
Proof.
  unfold buildPositions.
  assert (∃ positions,
            (if truthy interpolatedData && Array_isArray interpolatedData then
               forEach (elements interpolatedData)
                 (λ curve positions,
                    match elem_points curve with
                    | Some points =>
                        curvePoints ← generateBezierCurve (Some points) default_segments;
                        Ok (positions ++ (curvePoints ≫= λ point, [x point; y point; z point]))
                    | None => Ok positions
                    end)
                 []
             else if truthy interpolatedData && Array_isArray interpolatedData then
               forEach (elements interpolatedData)
                 (λ point positions, Ok (positions ++ elem_xyz point))
                 []
             else Ok []) = Ok positions) as [positions ->].
  { destruct (_ && _); [|by eexists].
    apply forEach_total. intros e positions.
    destruct (elem_points e) as [points|]; [|by eexists].
    destruct (generateBezierCurve_total (Some points) default_segments)
      as [curvePoints ->].
    by eexists. }
  simpl. destruct (_ && _); by eexists.
Qed.

Lemma interpolateFrames_total (prevFrame nextFrame : nat * Frame.t)
    (targetFrame : Qc) :
  (is_Some (Frame.points prevFrame.2) ∧ is_Some (Frame.points nextFrame.2))
  ∨ (is_Some (Frame.curves prevFrame.2) ∧ is_Some (Frame.curves nextFrame.2)) →
  ∃ d, interpolateFrames prevFrame nextFrame targetFrame = Ok d.
Proof.
  intros H. unfold interpolateFrames. case_bool_decide; [by eexists|].
  destruct (Frame.curves prevFrame.2) as [curves1|] eqn:E1,
           (Frame.curves nextFrame.2) as [curves2|] eqn:E2.
  - destruct (interpolateBezierCurves_total curves1 curves2
                (if bool_decide (Frame.frame nextFrame.2 - Frame.frame prevFrame.2 = 0)
                 then 0
                 else (targetFrame - Frame.frame prevFrame.2)
                      / (Frame.frame nextFrame.2 - Frame.frame prevFrame.2)))
      as [out ->].
    by eexists.
  - destruct H as [[[ps1 ->] [ps2 ->]] | [_ [? [=]]]].
    rewrite interpolatePoints_zip. by eexists.
  - destruct H as [[[ps1 ->] [ps2 ->]] | [[? [=]] _]].
    rewrite interpolatePoints_zip. by eexists.
  - destruct H as [[[ps1 ->] [ps2 ->]] | [[? [=]] _]].
    rewrite interpolatePoints_zip. by eexists.
Qed.

Lemma updateSplineGeometry_total (md : Metadata.t) (spline : Spline) (time : Qc) :
  homogeneous spline →
  ∃ spline', updateSplineGeometry (Some md) spline time = Ok spline'.
Proof.
  intros Hh. unfold updateSplineGeometry. simpl.
  set (targetFrame := time * _).
  assert (Hbr : ∀ p n,
            (scanFrames (frames spline) 0 targetFrame None).1 = Some p ∨
            (scanFrames (frames spline) 0 targetFrame None).2 = Some p →
            (scanFrames (frames spline) 0 targetFrame None).1 = Some n ∨
            (scanFrames (frames spline) 0 targetFrame None).2 = Some n →
            ∃ d, interpolateFrames p n targetFrame = Ok d).
  { intros p n Hp Hn. apply interpolateFrames_total.
    destruct Hh as [Hh|Hh]; [left|right];
      (destruct (scanFrames_Forall _ _ 0 targetFrame None Hh) as [H1 H2];
       [done|];
       split; [destruct Hp as [Hp|Hp]|destruct Hn as [Hn|Hn]]; eauto). }
  destruct (scanFrames _ _ _ _) as [[p|] [n|]]; simpl in *;
    [| | |by eexists].
  - destruct (Hbr p n) as [d ->]; [by left|by right|]. simpl.
    destruct (buildPositions_total d (closed spline)) as [ps ->]. by eexists.
  - destruct (Hbr p p) as [d ->]; [by left|by left|]. simpl.
    destruct (buildPositions_total d (closed spline)) as [ps ->]. by eexists.
  - destruct (Hbr n n) as [d ->]; [by right|by right|]. simpl.
    destruct (buildPositions_total d (closed spline)) as [ps ->]. by eexists.
Qed.

Lemma updateSplineGeometry_homogeneous md spline time spline' :
  updateSplineGeometry md spline time = Ok spline' →
  homogeneous spline → homogeneous spline'.
Proof.
  intros H%updateSplineGeometry_static. unfold homogeneous.
  by replace (frames spline') with (frames spline) by by simplify_eq.
Qed.

Lemma updateSplines_forEach_total (md : Metadata.t) (time : Qc) (l : list Spline) :
  Forall homogeneous l →
  (updateSplines_forEach (Some md) time l).2 = Normal
  ∧ Forall homogeneous (updateSplines_forEach (Some md) time l).1.
Proof.
  induction 1 as [|spline l Hh Hl IH]; simpl; [done|].
  destruct (updateSplineGeometry_total md spline time Hh) as [spline' E].
  rewrite E. destruct (updateSplines_forEach _ _ l) as [l' c]. simpl in *.
  destruct IH as [-> IH]. split; [done|]. constructor; [|done].
  by apply (updateSplineGeometry_homogeneous _ _ _ _ E).
Qed.

(** A loaded loader all of whose tracks are homogeneous. *)
Lemma playback_total (this : SplineLoader) (c : Call) :
  is_Some (metadata this) → Forall homogeneous (splines this) →
  (run c this).2 = Normal
  ∧ is_Some (metadata (run c this).1)
  ∧ Forall homogeneous (splines (run c this).1).
Proof.
  intros [md Hmd] Hh.
  assert (Hup : ∀ s, metadata s = Some md → splines s = splines this →
            (updateSplines s).2 = Normal
            ∧ is_Some (metadata (updateSplines s).1)
            ∧ Forall homogeneous (splines (updateSplines s).1)).
  { intros s Hm Hs. unfold updateSplines. rewrite Hm, Hs.
    destruct (updateSplines_forEach_total md (currentTime s) _ Hh) as [H1 H2].
    destruct (updateSplines_forEach _ _ _) as [l c']. simpl in *.
    by rewrite Hm. }
  destruct c as [| | |time|progress|deltaTime]; simpl.
  - by rewrite Hmd.
  - by rewrite Hmd.
  - by apply Hup.
  - by apply Hup.
  - by apply Hup.
  - unfold update. destruct (_ || _); [simpl; by rewrite Hmd|].
    apply Hup; by destruct (loop _); [|case_bool_decide].
Qed.

(** ** Loaded states *)

Lemma foldl_Math_max_ge (fs : list Frame.t) (maxFrame : Qc) :
  maxFrame
  ≤ foldl (λ maxFrame frame, Num.Math_max maxFrame (Frame.frame frame))
          maxFrame fs.
Proof.
  revert maxFrame. induction fs as [|f fs IH]; intros maxFrame; simpl.
  - apply Qcle_refl.
  - etrans; [apply (Math_max_ge_l _ (Frame.frame f))|apply IH].
Qed.

Lemma parse_forEach_frame (l : list SplineData) (this : SplineLoader)
    (maxFrame : Qc) :
  currentTime (parse_forEach l this maxFrame).1.1 = currentTime this
  ∧ metadata (parse_forEach l this maxFrame).1.1 = metadata this
  ∧ maxFrame ≤ (parse_forEach l this maxFrame).1.2.
Proof.
  revert this maxFrame.
  induction l as [|splineData l IH]; intros this maxFrame; simpl.
  - split; [done|]. split; [done|apply Qcle_refl].
  - destruct (updateSplineGeometry _ _ _) as [spline|e]; simpl.
    + match goal with |- context [parse_forEach l ?s ?m] =>
        destruct (IH s m) as (-> & -> & H) end.
      split; [done|]. split; [done|].
      etrans; [apply foldl_Math_max_ge|exact H].
    + split; [done|]. split; [done|apply foldl_Math_max_ge].
Qed.

(** After a successful parse into a new loader, with a positive frame rate
    (or none: 30 is used), [currentTime = 0] lies in [[0, duration]]. *)
Lemma parsed_time_in_range (data : AssetData) (this : SplineLoader) :
  parseSplineData data constructor = (this, Normal) →
  0 < Num.or_default (data_metadata data ≫= Metadata.frameRate) (Qc_of_Z 30) →
  time_in_range this ∧ is_Some (metadata this).
Proof.
  unfold parseSplineData. intros H Hrate.
  destruct (data_splines data) as [l|]; [|done].
  match type of H with context [parse_forEach l ?s ?m] =>
    pose proof (parse_forEach_frame l s m) as (Ht & Hm & Hmax);
    destruct (parse_forEach l s m) as [[this' maxFrame] [|e]] end;
    [|done].
  simpl in *. injection H as <-. unfold time_in_range. simpl.
  rewrite Ht, Hm. simpl. split; [|by eexists].
  split; [done|]. apply div_nonneg; [done|].
  by destruct (data_metadata data).
Qed.

(** * Further properties of the code *)

(** ** The temporal resolver *)

Lemma scanFrames_below (fs : list Frame.t) (i0 : nat) (targetFrame : Qc)
    (prevFrame : option (nat * Frame.t)) :
  Forall (λ g, Frame.frame g < targetFrame) fs →
  scanFrames fs i0 targetFrame prevFrame
  = (match list.last fs with
     | Some l => Some ((i0 + length fs - 1)%nat, l)
     | None => prevFrame
     end, None).
Proof.
  intros H. revert i0 prevFrame.
  induction H as [|g fs Hg Hfs IH]; intros i0 prevFrame; simpl; [done|].
  rewrite (bool_decide_eq_true_2 (Frame.frame g ≤ targetFrame))
      by (by apply Qclt_le_weak).
  rewrite (bool_decide_eq_false_2 (targetFrame ≤ Frame.frame g))
      by (by apply Qclt_nge).
  rewrite IH, last_cons. destruct (list.last fs) as [l|] eqn:E.
  - do 3 f_equal. lia.
  - apply last_None in E as ->. simpl. do 3 f_equal. lia.
Qed.

Lemma scanFrames_split (before after : list Frame.t) (f : Frame.t) (i0 : nat)
    (targetFrame : Qc) (prevFrame : option (nat * Frame.t)) :
  Forall (λ g, Frame.frame g < targetFrame) before →
  targetFrame ≤ Frame.frame f →
  scanFrames (before ++ f :: after) i0 targetFrame prevFrame
  = (if bool_decide (Frame.frame f ≤ targetFrame)
     then Some ((i0 + length before)%nat, f)
     else match list.last before with
          | Some l => Some ((i0 + length before - 1)%nat, l)
          | None => prevFrame
          end,
     Some ((i0 + length before)%nat, f)).
Proof.
  intros H Hf. revert i0 prevFrame.
  induction H as [|g fs Hg Hfs IH]; intros i0 prevFrame; simpl.
  - rewrite (bool_decide_eq_true_2 (targetFrame ≤ _)) by done.
    rewrite Nat.add_0_r. done.
  - rewrite (bool_decide_eq_true_2 (Frame.frame g ≤ targetFrame))
      by (by apply Qclt_le_weak).
    rewrite (bool_decide_eq_false_2 (targetFrame ≤ Frame.frame g))
      by (by apply Qclt_nge).
    rewrite IH. replace (S i0 + length fs)%nat with (i0 + S (length fs))%nat by lia.
    f_equal. case_bool_decide; [done|].
    rewrite last_cons. destruct (list.last fs) as [l|] eqn:E.
    + by repeat (f_equal; try lia).
    + apply last_None in E as ->. simpl. by repeat (f_equal; try lia).
Qed.

(** [updateSplineGeometry] through its parts. *)
Lemma interpolateFrames_blend (prevFrame nextFrame : nat * Frame.t)
    (targetFrame : Qc) :
  interpolateFrames prevFrame nextFrame targetFrame
  = if bool_decide (prevFrame.1 = nextFrame.1)
    then Ok (curves_or_points prevFrame.2)
    else blendFrames prevFrame.2 nextFrame.2
           (interpolationFactor prevFrame.2 nextFrame.2 targetFrame).
Proof. done. Qed.

Lemma updateSplineGeometry_resolve (md : Metadata.t) (spline : Spline)
    (time : Qc) :
  updateSplineGeometry (Some md) spline time
  = match resolveBracket (frames spline) (time * frameRateOf md) with
    | None => Ok spline
    | Some (prevFrame, nextFrame) =>
        interpolatedData ←
          interpolateFrames prevFrame nextFrame (time * frameRateOf md);
        positions ← buildPositions interpolatedData (closed spline);
        Ok (setAttribute_position spline positions)
    end.
Proof.
  unfold updateSplineGeometry, resolveBracket, frameRateOf. simpl.
  by destruct (scanFrames _ _ _ _) as [[p|] [n|]].
Qed.

Lemma resolveBracket_nil (targetFrame : Qc) : resolveBracket [] targetFrame = None.
Proof. done. Qed.

Lemma resolveBracket_first (before after : list Frame.t) (f : Frame.t)
    (targetFrame : Qc) :
  Forall (λ g, Frame.frame g < targetFrame) before →
  targetFrame ≤ Frame.frame f →
  resolveBracket (before ++ f :: after) targetFrame
  = if bool_decide (Frame.frame f ≤ targetFrame)
    then Some ((length before, f), (length before, f))
    else match list.last before with
         | Some l => Some (((length before - 1)%nat, l), (length before, f))
         | None => Some ((length before, f), (length before, f))
         end.
Proof.
  intros Hb Hf. unfold resolveBracket.
  rewrite (scanFrames_split before after f 0 targetFrame None Hb Hf). simpl.
  case_bool_decide; [done|]. by destruct (list.last before).
Qed.

Lemma resolveBracket_all_below (before : list Frame.t) (l : Frame.t)
    (targetFrame : Qc) :
  Forall (λ g, Frame.frame g < targetFrame) (before ++ [l]) →
  resolveBracket (before ++ [l]) targetFrame
  = Some ((length before, l), (length before, l)).
Proof.
  intros H. unfold resolveBracket. rewrite scanFrames_below by done.
  rewrite last_snoc, length_app. simpl.
  by replace (length before + 1 - 1)%nat with (length before) by lia.
Qed.

(** Every list of frames is below the target throughout, or splits at the
    first frame at or above it. *)
Lemma frames_split_at_target (fs : list Frame.t) (targetFrame : Qc) :
  Forall (λ g, Frame.frame g < targetFrame) fs
  ∨ ∃ before f after,
      fs = before ++ f :: after
      ∧ Forall (λ g, Frame.frame g < targetFrame) before
      ∧ targetFrame ≤ Frame.frame f.
Proof.
  induction fs as [|g fs IH]; [by left|].
  destruct (decide (targetFrame ≤ Frame.frame g)) as [Hg|Hg].
  - right. exists [], g, fs. by repeat split.
  - apply Qclt_nge in Hg. destruct IH as [IH|(before & f & after & -> & Hb & Hf)].
    + left. by constructor.
    + right. exists (g :: before), f, after. repeat split; [|done]. by constructor.
Qed.

Lemma factor_between (a b v : Qc) :
  a < v → v < b → 0 < (v - a) / (b - a) ∧ (v - a) / (b - a) < 1.
Proof.
  intros Ha Hb.
  assert (Hd : 0 < b - a).
  { apply (Qclt_minus_iff a b). by trans v. }
  assert (Hn : 0 < v - a) by by apply (Qclt_minus_iff a v).
  pose proof (Qcinv_pos _ Hd) as Hi. unfold Qcdiv. split.
  - by apply Qcmult_pos_pos.
  - rewrite <- (Qcmult_inv_r (b - a)) by by apply Qclt_ne_0.
    apply Qcmult_lt_compat_r; [done|].
    by apply (Qcplus_lt_mono_r v b (- a)).
Qed.

Lemma interpolationFactor_between (g f : Frame.t) (targetFrame : Qc) :
  Frame.frame g < targetFrame → targetFrame < Frame.frame f →
  interpolationFactor g f targetFrame
  = (targetFrame - Frame.frame g) / (Frame.frame f - Frame.frame g)
  ∧ 0 < interpolationFactor g f targetFrame
  ∧ interpolationFactor g f targetFrame < 1.
Proof.
  intros Hg Hf. unfold interpolationFactor.
  rewrite bool_decide_eq_false_2.
  - split; [done|]. by apply factor_between.
  - apply Qclt_ne_0. apply (Qclt_minus_iff (Frame.frame g) (Frame.frame f)).
    by trans targetFrame.
Qed.

(** X1.  Whatever the order of the frames, the bracket that the resolver
    finds is either one keyframe taken twice, or two keyframes next to each
    other in the array whose frame numbers lie strictly below and strictly
    above the target; in that case the interpolation factor is strictly
    between 0 and 1. *)
Theorem bracket_is_single_or_adjacent (fs : list Frame.t) (targetFrame : Qc)
    (prevFrame nextFrame : nat * Frame.t) :
  resolveBracket fs targetFrame = Some (prevFrame, nextFrame) →
  fs !! prevFrame.1 = Some prevFrame.2 ∧ fs !! nextFrame.1 = Some nextFrame.2
  ∧ (prevFrame = nextFrame
     ∨ (nextFrame.1 = S prevFrame.1
        ∧ Frame.frame prevFrame.2 < targetFrame
        ∧ targetFrame < Frame.frame nextFrame.2
        ∧ 0 < interpolationFactor prevFrame.2 nextFrame.2 targetFrame
        ∧ interpolationFactor prevFrame.2 nextFrame.2 targetFrame < 1)).
Proof.
  intros H.
  destruct (frames_split_at_target fs targetFrame)
    as [Hall|(before & f & after & -> & Hb & Hf)].
  - destruct fs as [|g fs _] using rev_ind; [done|].
    rewrite resolveBracket_all_below in H by done. simplify_eq. simpl.
    rewrite lookup_app_r, Nat.sub_diag by done. by eauto.
  - rewrite resolveBracket_first in H by done.
    assert (Hlook : (before ++ f :: after) !! length before = Some f).
    { by rewrite lookup_app_r, Nat.sub_diag. }
    case_bool_decide as Hle; [simplify_eq; by eauto|].
    destruct before as [|g before _] using rev_ind; simpl in H;
      [simplify_eq; by eauto|].
    rewrite last_snoc in H. simplify_eq. simpl.
    rewrite length_app in *. simpl in *.
    replace (length before + 1 - 1)%nat with (length before) by lia.
    split; [|split; [done|right]].
    { rewrite <- app_assoc. by rewrite lookup_app_r, Nat.sub_diag. }
    apply Forall_app in Hb as [_ Hg]. apply Forall_inv in Hg.
    apply Qclt_nge in Hle.
    destruct (interpolationFactor_between g f targetFrame Hg Hle) as (_ & ? & ?).
    repeat split; [lia|done..].
Qed.

Lemma bracket_is_single_or_adjacent_witness :
  fs_sample !! 0%nat = Some (Frame.mk 0 None (Some [P 0 0 0]))
  ∧ fs_sample !! 1%nat = Some (Frame.mk (Qc_of_Z 30) None (Some [P 6 0 0])).
Proof.
  destruct (bracket_is_single_or_adjacent fs_sample (Qc_of_Z 10)
              (0%nat, Frame.mk 0 None (Some [P 0 0 0]))
              (1%nat, Frame.mk (Qc_of_Z 30) None (Some [P 6 0 0])))
    as (H1 & H2 & _).
  - apply (bool_decide_unpack _). vm_compute. reflexivity.
  - split; [exact H1|exact H2].
Defined.

(** The update of a track whose bracket is one keyframe taken twice. *)
Lemma updateSplineGeometry_single (md : Metadata.t) (spline : Spline)
    (time : Qc) (i : nat) (f : Frame.t) :
  resolveBracket (frames spline) (time * frameRateOf md) = Some ((i, f), (i, f)) →
  updateSplineGeometry (Some md) spline time
  = setAttribute_position spline
      <$> buildPositions (curves_or_points f) (closed spline).
Proof.
  intros H. rewrite updateSplineGeometry_resolve, H, interpolateFrames_blend.
  simpl. rewrite bool_decide_eq_true_2 by done. simpl.
  by destruct (buildPositions _ _).
Qed.

(** X2.  When the target frame [time * frameRate] is the frame number of a
    keyframe and every keyframe stored before it is below the target, the
    buffer is the tessellation of that keyframe's own content: nothing is
    blended. *)
Theorem exact_keyframe_not_blended (md : Metadata.t) (spline : Spline)
    (time : Qc) (before after : list Frame.t) (f : Frame.t) :
  frames spline = before ++ f :: after →
  Forall (λ g, Frame.frame g < time * frameRateOf md) before →
  Frame.frame f = time * frameRateOf md →
  updateSplineGeometry (Some md) spline time
  = setAttribute_position spline
      <$> buildPositions (curves_or_points f) (closed spline).
Proof.
  intros Hfs Hb Hf. apply (updateSplineGeometry_single _ _ _ (length before)).
  rewrite Hfs, resolveBracket_first by (done || by rewrite Hf).
  rewrite bool_decide_eq_true_2; [done|by rewrite Hf].
Qed.

Lemma exact_keyframe_not_blended_witness :
  updateSplineGeometry (Some md30) (track fs_sample false) 1
  = setAttribute_position (track fs_sample false)
      <$> buildPositions (DPoints [P 6 0 0]) false.
Proof.
  apply (exact_keyframe_not_blended md30 (track fs_sample false) 1
           [Frame.mk 0 None (Some [P 0 0 0])] []
           (Frame.mk (Qc_of_Z 30) None (Some [P 6 0 0]))).
  - reflexivity.
  - repeat constructor.
  - apply (bool_decide_unpack _). vm_compute. reflexivity.
Defined.

(** X3.  Outside the keyframes the resolver clamps: a target below the
    first stored keyframe uses that keyframe alone, and a target above every
    keyframe uses the last stored keyframe alone. *)
Theorem outside_keyframes_clamped (md : Metadata.t) (spline : Spline) (time : Qc) :
  (∀ (f : Frame.t) (after : list Frame.t),
     frames spline = f :: after →
     time * frameRateOf md < Frame.frame f →
     updateSplineGeometry (Some md) spline time
     = setAttribute_position spline
         <$> buildPositions (curves_or_points f) (closed spline))
  ∧ (∀ (before : list Frame.t) (l : Frame.t),
       frames spline = before ++ [l] →
       Forall (λ g, Frame.frame g < time * frameRateOf md) (frames spline) →
       updateSplineGeometry (Some md) spline time
       = setAttribute_position spline
           <$> buildPositions (curves_or_points l) (closed spline)).
Proof.
  split.
  - intros f after Hfs Hf. apply (updateSplineGeometry_single _ _ _ 0%nat).
    rewrite Hfs.
    rewrite (resolveBracket_first [] after f) by (done || by apply Qclt_le_weak).
    simpl. by case_bool_decide.
  - intros before l Hfs Hall.
    apply (updateSplineGeometry_single _ _ _ (length before)).
    rewrite Hfs in *. by apply resolveBracket_all_below.
Qed.

Lemma outside_keyframes_clamped_witness :
  updateSplineGeometry (Some md30) (track fs_sample false) (Qc_of_Z 5)
  = setAttribute_position (track fs_sample false)
      <$> buildPositions (DPoints [P 6 0 0]) false.
Proof.
  apply (proj2 (outside_keyframes_clamped md30 (track fs_sample false) (Qc_of_Z 5))
           [Frame.mk 0 None (Some [P 0 0 0])]
           (Frame.mk (Qc_of_Z 30) None (Some [P 6 0 0]))).
  - reflexivity.
  - repeat constructor; apply (bool_decide_unpack _); vm_compute; reflexivity.
Defined.

(** X4.  Strictly between two keyframes stored next to each other (every
    keyframe stored before them being below the target), the buffer is the
    tessellation of their blend at the factor
    [(target - prev.frame) / (next.frame - prev.frame)]. *)
Theorem between_keyframes_blended (md : Metadata.t) (spline : Spline)
    (time : Qc) (before after : list Frame.t) (g f : Frame.t) :
  frames spline = before ++ g :: f :: after →
  Forall (λ h, Frame.frame h < time * frameRateOf md) before →
  Frame.frame g < time * frameRateOf md →
  time * frameRateOf md < Frame.frame f →
  updateSplineGeometry (Some md) spline time
  = (interpolatedData ←
       blendFrames g f
         ((time * frameRateOf md - Frame.frame g)
          / (Frame.frame f - Frame.frame g));
     positions ← buildPositions interpolatedData (closed spline);
     Ok (setAttribute_position spline positions)).
Proof.
  intros Hfs Hb Hg Hf.
  rewrite updateSplineGeometry_resolve, Hfs.
  replace (before ++ g :: f :: after) with ((before ++ [g]) ++ f :: after)
    by (by rewrite <- app_assoc).
  rewrite resolveBracket_first;
    [|apply Forall_app; split; [done|by constructor]|by apply Qclt_le_weak].
  rewrite bool_decide_eq_false_2 by (by apply Qclt_nge).
  rewrite last_snoc, length_app. simpl.
  rewrite interpolateFrames_blend. simpl.
  rewrite bool_decide_eq_false_2 by lia.
  by destruct (interpolationFactor_between g f _ Hg Hf) as (-> & _).
Qed.

Lemma between_keyframes_blended_witness :
  updateSplineGeometry (Some md30) (track fs_sample false) (1 / 2)
  = (interpolatedData ←
       blendFrames (Frame.mk 0 None (Some [P 0 0 0]))
         (Frame.mk (Qc_of_Z 30) None (Some [P 6 0 0]))
         ((1 / 2 * frameRateOf md30 - 0) / (Qc_of_Z 30 - 0));
     positions ← buildPositions interpolatedData false;
     Ok (setAttribute_position (track fs_sample false) positions)).
Proof.
  apply (between_keyframes_blended md30 (track fs_sample false) (1 / 2) [] []
           (Frame.mk 0 None (Some [P 0 0 0]))
           (Frame.mk (Qc_of_Z 30) None (Some [P 6 0 0]))).
  - reflexivity.
  - constructor.
  - apply (bool_decide_unpack _). vm_compute. reflexivity.
  - apply (bool_decide_unpack _). vm_compute. reflexivity.
Defined.

(** ** Tessellation *)

Lemma paired_length_blocks {A B C} (f : nat → A → B → list C)
    (l1 : list A) (l2 : list B) (i0 n : nat) :
  (∀ j a b, length (f j a b) = n) →
  length (paired f i0 l1 l2) = ((length l1 `min` length l2) * n)%nat.
Proof.
  intros Hn. revert l2 i0.
  induction l1 as [|a l1 IH]; intros [|b l2] i0; simpl; try done.
  by rewrite length_app, Hn, IH.
Qed.

Lemma paired_lookup_block {A B C} (f : nat → A → B → list C)
    (l1 : list A) (l2 : list B) (i0 n i k : nat) (a : A) (b : B) :
  (∀ j a b, length (f j a b) = n) →
  l1 !! i = Some a → l2 !! i = Some b → (k < n)%nat →
  paired f i0 l1 l2 !! (i * n + k)%nat = f (i0 + i)%nat a b !! k.
Proof.
  intros Hn. revert l2 i0 i.
  induction l1 as [|a1 l1 IH]; intros [|b1 l2] i0 i Ha Hb Hk; try done.
  simpl. destruct i as [|i]; simpl in *.
  - simplify_eq. rewrite Nat.add_0_r. apply lookup_app_l. by rewrite Hn.
  - rewrite lookup_app_r by (rewrite Hn; lia). rewrite Hn.
    replace (n + i * n + k - n)%nat with (i * n + k)%nat by lia.
    rewrite (IH l2 (S i0) i Ha Hb Hk). f_equal. f_equal. lia.
Qed.

Lemma getPoints_length (c : THREE.CubicBezierCurve3) (divisions : nat) :
  length (THREE.getPoints c divisions) = S divisions.
Proof. unfold THREE.getPoints. by rewrite length_fmap, length_seq. Qed.

Lemma getPoints_lookup (c : THREE.CubicBezierCurve3) (divisions k : nat) :
  (k ≤ divisions)%nat →
  THREE.getPoints c divisions !! k
  = Some (THREE.getPoint c
            (Qc_of_Z (Z.of_nat k) / Qc_of_Z (Z.of_nat divisions))).
Proof.
  intros Hk. unfold THREE.getPoints.
  rewrite list_lookup_fmap, lookup_seq_lt by lia. done.
Qed.

Lemma Qc_of_Z_ne_0 (n : Z) : n ≠ 0%Z → Qc_of_Z n ≠ 0.
Proof. intros Hn H. apply Hn. by injection H. Qed.

Lemma getPoint_start (c : THREE.CubicBezierCurve3) (d : Qc) :
  THREE.getPoint c (Qc_of_Z (Z.of_nat 0) / d) = THREE.v0 c.
Proof.
  replace (Qc_of_Z (Z.of_nat 0)) with (0 : Qc) by (by apply Qc_is_canon).
  replace (0 / d) with (0 : Qc) by (unfold Qcdiv; by rewrite Qcmult_0_l).
  unfold THREE.getPoint, THREE.CubicBezier. destruct c as [[] [] [] []]; simpl.
  f_equal; ring.
Qed.

Lemma getPoint_end (c : THREE.CubicBezierCurve3) (n : nat) :
  (0 < n)%nat →
  THREE.getPoint c (Qc_of_Z (Z.of_nat n) / Qc_of_Z (Z.of_nat n)) = THREE.v3 c.
Proof.
  intros Hn.
  replace (Qc_of_Z (Z.of_nat n) / Qc_of_Z (Z.of_nat n)) with (1 : Qc)
    by (unfold Qcdiv; rewrite Qcmult_inv_r; [done|apply Qc_of_Z_ne_0; lia]).
  unfold THREE.getPoint, THREE.CubicBezier. destruct c as [[] [] [] []]; simpl.
  f_equal; ring.
Qed.

Lemma generateBezierCurve_length (bezierPoints : list ControlPoint)
    (segments : nat) :
  ∃ curvePoints,
    generateBezierCurve (Some bezierPoints) segments = Ok curvePoints
    ∧ length curvePoints = ((length bezierPoints - 1) * S segments)%nat.
Proof.
  destruct (decide (2 ≤ length bezierPoints)%nat) as [H|H].
  - rewrite generateBezierCurve_arcs by done. eexists. split; [done|].
    rewrite (paired_length_blocks _ _ _ _ (S segments))
      by (intros; apply getPoints_length).
    destruct bezierPoints; cbn [length tail] in *; lia.
  - unfold generateBezierCurve. rewrite bool_decide_eq_true_2 by lia.
    eexists. split; [done|].
    destruct bezierPoints as [|? [|? ?]]; simpl in *; lia.
Qed.

(** X5.  [generateBezierCurve] never throws and emits
    [(n - 1) * (segments + 1)] points for [n] control points: nothing for
    zero or one control point, [segments + 1] samples for each pair of
    consecutive control points otherwise. *)
Theorem generateBezierCurve_count (bezierPoints : list ControlPoint)
    (segments : nat) :
  ∃ curvePoints,
    generateBezierCurve (Some bezierPoints) segments = Ok curvePoints
    ∧ length curvePoints = ((length bezierPoints - 1) * S segments)%nat
    ∧ (length bezierPoints = 2%nat → segments = 20%nat →
       length curvePoints = 21%nat).
Proof.
  destruct (generateBezierCurve_length bezierPoints segments) as (out & H & Hl).
  exists out. split; [done|]. split; [done|]. intros H2 ->. rewrite Hl, H2. done.
Qed.

(** X6.  With at least one segment per arc, the arc of the consecutive
    control points [i] and [i+1] occupies the indices [i * (segments + 1)]
    to [i * (segments + 1) + segments] of the result; it starts at the knot
    of control point [i] and ends at the knot of control point [i+1], so the
    knot of every inner control point is emitted twice in a row. *)
Theorem generateBezierCurve_arc_samples (bezierPoints : list ControlPoint)
    (segments i : nat) (current next : ControlPoint) :
  (0 < segments)%nat →
  bezierPoints !! i = Some current → bezierPoints !! S i = Some next →
  ∃ curvePoints,
    generateBezierCurve (Some bezierPoints) segments = Ok curvePoints
    ∧ (∀ k, (k ≤ segments)%nat →
         curvePoints !! (i * S segments + k)%nat
         = Some (THREE.getPoint
                   (THREE.mkCurve (knot current) (outHandle current)
                                  (inHandle next) (knot next))
                   (Qc_of_Z (Z.of_nat k) / Qc_of_Z (Z.of_nat segments))))
    ∧ curvePoints !! (i * S segments)%nat = Some (knot current)
    ∧ curvePoints !! (i * S segments + segments)%nat = Some (knot next).
Proof.
  intros Hseg Hc Hn.
  assert (Hlen : (2 ≤ length bezierPoints)%nat).
  { apply lookup_lt_Some in Hn. lia. }
  rewrite generateBezierCurve_arcs by done. eexists. split; [done|].
  assert (Hk : ∀ k, (k ≤ segments)%nat →
            paired (λ _ current next,
                      THREE.getPoints
                        (THREE.mkCurve (knot current) (outHandle current)
                                       (inHandle next) (knot next)) segments)
                   0 bezierPoints (tail bezierPoints)
              !! (i * S segments + k)%nat
            = Some (THREE.getPoint
                      (THREE.mkCurve (knot current) (outHandle current)
                                     (inHandle next) (knot next))
                      (Qc_of_Z (Z.of_nat k) / Qc_of_Z (Z.of_nat segments)))).
  { intros k Hk.
    rewrite (paired_lookup_block _ _ _ 0 (S segments) i k current next);
      [by apply getPoints_lookup|intros; apply getPoints_length|done| |lia].
    by rewrite lookup_tail. }
  split; [done|]. split.
  - rewrite <- (Nat.add_0_r (i * S segments)), (Hk 0%nat) by lia.
    by rewrite getPoint_start.
  - rewrite (Hk segments) by lia. by rewrite getPoint_end.
Qed.

Lemma generateBezierCurve_arc_samples_witness :
  ∃ curvePoints,
    generateBezierCurve (Some [K 0 0 0; K 3 0 0; K 3 4 0]) 20 = Ok curvePoints
    ∧ curvePoints !! 20%nat = Some (P 3 0 0)
    ∧ curvePoints !! 21%nat = Some (P 3 0 0).
Proof.
  destruct (generateBezierCurve_arc_samples [K 0 0 0; K 3 0 0; K 3 4 0] 20 0
              (K 0 0 0) (K 3 0 0)) as (out & H & _ & _ & Hend);
    [lia|reflexivity|reflexivity|].
  destruct (generateBezierCurve_arc_samples [K 0 0 0; K 3 0 0; K 3 4 0] 20 1
              (K 3 0 0) (K 3 4 0)) as (out' & H' & _ & Hstart & _);
    [lia|reflexivity|reflexivity|].
  rewrite H in H'. injection H' as <-.
  exists out. split; [exact H|]. split; [exact Hend|exact Hstart].
Defined.

(** ** The position buffer *)

Lemma forEach_invariant {A S} (Q : S → Prop) (l : list A)
    (body : A → S → result S) (s : S) :
  Q s → (∀ a s, Q s → ∃ s', body a s = Ok s' ∧ Q s') →
  ∃ s', forEach l body s = Ok s' ∧ Q s'.
Proof.
  intros Hs Hbody. revert s Hs. induction l as [|a l IH]; intros s Hs; simpl.
  - by eexists.
  - destruct (Hbody a s Hs) as (s' & -> & Hs'). simpl. by apply IH.
Qed.

Lemma xyz_length (l : list Point3) :
  length (l ≫= λ point, [x point; y point; z point]) = (3 * length l)%nat.
Proof.
  induction l as [|p l IH]; [done|].
  rewrite bind_cons, length_app, IH. simpl. lia.
Qed.

(** The array [positions] before the closing step. *)
Lemma positions_triples (interpolatedData : Data) :
  ∃ positions,
    buildPositions interpolatedData false = Ok positions
    ∧ (∃ n, length positions = (3 * n)%nat)
    ∧ buildPositions interpolatedData true
      = Ok (if bool_decide (0 < length positions)%nat
            then positions ++ take 3 positions else positions).
Proof.
  unfold buildPositions.
  assert (Hloop : ∃ positions,
            (if truthy interpolatedData && Array_isArray interpolatedData then
               forEach (elements interpolatedData)
                 (λ curve positions,
                    match elem_points curve with
                    | Some points =>
                        curvePoints ← generateBezierCurve (Some points) default_segments;
                        Ok (positions ++ (curvePoints ≫= λ point, [x point; y point; z point]))
                    | None => Ok positions
                    end)
                 []
             else if truthy interpolatedData && Array_isArray interpolatedData then
               forEach (elements interpolatedData)
                 (λ point positions, Ok (positions ++ elem_xyz point))
                 []
             else Ok []) = Ok positions
            ∧ ∃ n, length positions = (3 * n)%nat).
  { destruct (_ && _); [|by exists []; split; [|exists 0%nat]].
    apply forEach_invariant; [by exists 0%nat|].
    intros e positions [n Hn].
    destruct (elem_points e) as [points|]; [|by eauto].
    destruct (generateBezierCurve_total (Some points) default_segments)
      as [curvePoints ->].
    simpl. eexists. split; [done|]. exists (n + length curvePoints)%nat.
    rewrite length_app, xyz_length, Hn. lia. }
  destruct Hloop as (positions & -> & Hn). exists positions. simpl.
  split; [done|]. split; [done|]. by case_bool_decide.
Qed.

(** X7.  The position array always holds whole triples.  On a closed track
    with a non-empty array the three numbers appended are the first three of
    the array, all present; with an empty array nothing is appended. *)
Theorem positions_whole_triples (interpolatedData : Data) :
  ∃ positions,
    buildPositions interpolatedData false = Ok positions
    ∧ (∃ n, length positions = (3 * n)%nat)
    ∧ (positions = [] ∧ buildPositions interpolatedData true = Ok []
       ∨ ∃ x0 y0 z0 rest,
           positions = x0 :: y0 :: z0 :: rest
           ∧ buildPositions interpolatedData true
             = Ok (positions ++ [x0; y0; z0])).
Proof.
  destruct (positions_triples interpolatedData) as (positions & H & [n Hn] & Hc).
  exists positions. split; [done|]. split; [by exists n|].
  rewrite Hc. destruct positions as [|x0 [|y0 [|z0 rest]]]; simpl in *.
  - by left.
  - lia.
  - lia.
  - right. by exists x0, y0, z0, rest.
Qed.

Lemma forEach_curves_length (cs : list Curve.t) (acc : list Qc) :
  ∃ positions,
    forEach (ECurve <$> cs)
      (λ curve positions,
         match elem_points curve with
         | Some points =>
             curvePoints ← generateBezierCurve (Some points) default_segments;
             Ok (positions ++ (curvePoints ≫= λ point, [x point; y point; z point]))
         | None => Ok positions
         end)
      acc
    = Ok positions
    ∧ length positions
      = (length acc
         + 3 * sum_list ((λ c, (length (default [] (Curve.points c)) - 1) * 21)
                           <$> cs))%nat.
Proof.
  revert acc. induction cs as [|c cs IH]; intros acc;
    cbn -[generateBezierCurve].
  - exists acc. split; [done|lia].
  - destruct (Curve.points c) as [points|]; cbn -[generateBezierCurve].
    + destruct (generateBezierCurve_length points default_segments)
        as (curvePoints & -> & Hl). cbn -[generateBezierCurve].
      destruct (IH (acc ++ (curvePoints ≫= λ point, [x point; y point; z point])))
        as (positions & -> & Hp).
      exists positions. split; [done|].
      rewrite Hp, length_app, xyz_length, Hl. unfold default_segments. lia.
    + destruct (IH acc) as (positions & -> & Hp).
      exists positions. split; [done|]. rewrite Hp. lia.
Qed.

(** X8.  For a frame of curve segments on a track that is not closed, the
    buffer holds 21 positions (63 numbers) for every pair of consecutive
    control points of every segment; a segment with fewer than two control
    points, or without a control-point array, contributes nothing. *)
Theorem curve_buffer_length (cs : list Curve.t) :
  ∃ positions,
    buildPositions (DCurves cs) false = Ok positions
    ∧ length positions
      = (3 * sum_list ((λ c, (length (default [] (Curve.points c)) - 1) * 21)
                         <$> cs))%nat.
Proof.
  unfold buildPositions. cbn [truthy Array_isArray andb elements].
  destruct (forEach_curves_length cs []) as (positions & -> & Hl).
  exists positions. split; [done|]. by rewrite Hl.
Qed.

(** ** The interpolators at their ends *)

Lemma lerpPoint3_0 (p1 p2 : Point3) : lerpPoint3 p1 p2 0 = p1.
Proof. destruct p1, p2. unfold lerpPoint3. simpl. f_equal; ring. Qed.

Lemma lerpPoint3_1 (p1 p2 : Point3) : lerpPoint3 p1 p2 1 = p2.
Proof. destruct p1, p2. unfold lerpPoint3. simpl. f_equal; ring. Qed.



Lemma zip_with_left {A B} (f : A → B → A) (l1 : list A) (l2 : list B) :
  (∀ a b, f a b = a) → zip_with f l1 l2 = take (length l2) l1.
Proof.
  intros Hf. revert l2. induction l1 as [|a l1 IH]; intros [|b l2]; simpl;
    try done. by rewrite Hf, IH.
Qed.

Lemma zip_with_right {A B} (f : A → B → B) (l1 : list A) (l2 : list B) :
  (∀ a b, f a b = b) → zip_with f l1 l2 = take (length l1) l2.
Proof.
  intros Hf. revert l2. induction l1 as [|a l1 IH]; intros [|b l2]; simpl;
    try done. by rewrite Hf, IH.
Qed.


(** X9.  [interpolatePoints] throws when either array is missing.  On two
    arrays it returns as many points as the shorter one has, point [j]
    being the blend of the two points [j]; at [t = 0] these are the points
    of the first array and at [t = 1] those of the second, cut to the
    shorter length. *)
Theorem interpolatePoints_behaviour (points1 points2 : list Point3) (t : Qc) :
  interpolatePoints None (Some points2) t = Throw TypeError
  ∧ interpolatePoints (Some points1) None t = Throw TypeError
  ∧ (∃ out,
       interpolatePoints (Some points1) (Some points2) t = Ok out
       ∧ length out = (length points1 `min` length points2)%nat
       ∧ ∀ j p1 p2, points1 !! j = Some p1 → points2 !! j = Some p2 →
           out !! j
           = Some {| x := x p1 + (x p2 - x p1) * t;
                     y := y p1 + (y p2 - y p1) * t;
                     z := z p1 + (z p2 - z p1) * t |})
  ∧ interpolatePoints (Some points1) (Some points2) 0
    = Ok (take (length points2) points1)
  ∧ interpolatePoints (Some points1) (Some points2) 1
    = Ok (take (length points1) points2).
Proof.
  split; [done|]. split; [done|]. rewrite !interpolatePoints_zip. split.
  - eexists. split; [done|]. split; [apply length_zip_with|].
    intros j p1 p2 H1 H2. by rewrite lookup_zip_with, H1, H2.
  - split; f_equal.
    + apply zip_with_left. intros. apply lerpPoint3_0.
    + apply zip_with_right. intros. apply lerpPoint3_1.
Qed.








(** ** Progress and scrubbing *)

Lemma Qcdiv_le_1 (a d : Qc) : 0 < d → a ≤ d → a / d ≤ 1.
Proof.
  intros Hd Ha. rewrite <- (Qcmult_inv_r d) by by apply Qclt_ne_0.
  unfold Qcdiv. apply Qcmult_le_compat_r; [done|].
  by apply Qclt_le_weak, Qcinv_pos.
Qed.

(** X12.  While [currentTime] is in [[0, duration]], [getProgress] is in
    [[0, 1]], also when the duration is 0. *)
Theorem getProgress_in_unit_interval (this : SplineLoader) :
  time_in_range this → 0 ≤ getProgress this ∧ getProgress this ≤ 1.
Proof.
  intros [Hlo Hhi]. unfold getProgress. case_bool_decide as Hd.
  - split; [by apply div_nonneg|by apply Qcdiv_le_1].
  - split; [done|compute_done].
Qed.

Lemma getProgress_in_unit_interval_witness :
  0 ≤ getProgress (loader [] 3 10 false true)
  ∧ getProgress (loader [] 3 10 false true) ≤ 1.
Proof.
  apply (getProgress_in_unit_interval (loader [] 3 10 false true)).
  split; apply (bool_decide_unpack _); vm_compute; reflexivity.
Defined.




(** A bracket exists as soon as there is a frame. *)
Lemma resolveBracket_is_Some (fs : list Frame.t) (targetFrame : Qc) :
  fs ≠ [] → is_Some (resolveBracket fs targetFrame).
Proof.
  intros Hne.
  destruct (frames_split_at_target fs targetFrame)
    as [Hall|(before & f & after & -> & Hb & Hf)].
  - destruct fs as [|g fs _] using rev_ind; [done|].
    by rewrite resolveBracket_all_below.
  - rewrite resolveBracket_first by done.
    case_bool_decide; [done|]. by destruct (list.last before).
Qed.

(** The result of an update depends on the track only through what is not
    its buffer, and a track with frames has its buffer overwritten. *)
Lemma updateSplineGeometry_buffer_irrelevant (md : option Metadata.t)
    (spline : Spline) (positions : list Qc) (time : Qc) :
  frames spline ≠ [] →
  updateSplineGeometry md (setAttribute_position spline positions) time
  = updateSplineGeometry md spline time.
Proof.
  intros Hne. destruct md as [md|]; [|done].
  rewrite !updateSplineGeometry_resolve. simpl.
  destruct (resolveBracket_is_Some (frames spline) (time * frameRateOf md) Hne)
    as [[p n] ->].
  done.
Qed.

Lemma updateSplineGeometry_after (md : option Metadata.t) (spline spline' : Spline)
    (time time' : Qc) :
  updateSplineGeometry md spline time = Ok spline' →
  updateSplineGeometry md spline' time' = updateSplineGeometry md spline time'.
Proof.
  intros H. destruct (frames spline) as [|f fs] eqn:Hfs.
  - destruct (updateSplineGeometry_no_frames md spline time Hfs); congruence.
  - destruct (updateSplineGeometry_cases md spline time)
      as [E|[[positions E]|[e E]]]; rewrite E in H; simplify_eq; [done|].
    apply updateSplineGeometry_buffer_irrelevant. by rewrite Hfs.
Qed.

Lemma updateSplineGeometry_idempotent (md : option Metadata.t)
    (spline spline' : Spline) (time : Qc) :
  updateSplineGeometry md spline time = Ok spline' →
  updateSplineGeometry md spline' time = Ok spline'.
Proof. intros H. by rewrite (updateSplineGeometry_after _ _ _ _ _ H). Qed.

Lemma updateSplines_forEach_idempotent md time (l : list Spline) :
  updateSplines_forEach md time (updateSplines_forEach md time l).1
  = updateSplines_forEach md time l.
Proof.
  induction l as [|spline l IH]; [done|]. simpl.
  destruct (updateSplineGeometry md spline time) as [spline'|e] eqn:E.
  - destruct (updateSplines_forEach md time l) as [l' c] eqn:El. simpl in *.
    by rewrite (updateSplineGeometry_idempotent _ _ _ _ E), IH.
  - simpl. by rewrite E.
Qed.

Lemma updateSplines_forEach_after md time time' (l : list Spline) :
  (updateSplines_forEach md time l).2 = Normal →
  (updateSplines_forEach md time' l).2 = Normal →
  updateSplines_forEach md time' (updateSplines_forEach md time l).1
  = updateSplines_forEach md time' l.
Proof.
  induction l as [|spline l IH]; [done|]. simpl.
  destruct (updateSplineGeometry md spline time) as [spline1|e] eqn:E; [|done].
  destruct (updateSplines_forEach md time l) as [l1 c1] eqn:El. simpl.
  intros -> H. rewrite (updateSplineGeometry_after _ _ _ _ time' E).
  destruct (updateSplineGeometry md spline time') as [spline2|e]; [|done].
  destruct (updateSplines_forEach md time' l) as [l2 c2] eqn:El2. simpl in *.
  by rewrite IH.
Qed.

Lemma updateSplines_idempotent (this : SplineLoader) :
  updateSplines (updateSplines this).1 = updateSplines this.
Proof.
  unfold updateSplines.
  pose proof (updateSplines_forEach_idempotent (metadata this)
                (currentTime this) (splines this)) as H.
  destruct (updateSplines_forEach _ _ (splines this)) as [l c]. simpl in *.
  by rewrite H.
Qed.

Lemma set_fields_same (this : SplineLoader) (b : bool) (v : Qc) :
  isPlaying this = b → currentTime this = v →
  set_currentTime (set_isPlaying this b) v = this
  ∧ set_currentTime this v = this.
Proof. destruct this. simpl. by intros <- <-. Qed.

(** X14.  Scrubbing is idempotent: a second [setTime] to the same time, and
    a second [stop], leave the loader exactly as the first did, position
    buffers and completion included, even when a track throws. *)
Theorem scrubbing_idempotent (this : SplineLoader) (time : Qc) :
  setTime time (setTime time this).1 = setTime time this
  ∧ stop (stop this).1 = stop this.
Proof.
  split.
  - unfold setTime.
    set (s1 := set_currentTime this _).
    destruct (updateSplines_frame s1) as (Ht & Hd & Hp & _).
    rewrite Hd. change (duration s1) with (duration this).
    change (Num.Math_max 0 (Num.Math_min time (duration this)))
      with (currentTime s1).
    rewrite (proj2 (set_fields_same (updateSplines s1).1 _ _ Hp Ht)).
    apply updateSplines_idempotent.
  - unfold stop.
    set (s1 := set_currentTime (set_isPlaying this false) 0).
    destruct (updateSplines_frame s1) as (Ht & _ & Hp & _).
    change 0 with (currentTime s1) at 1. change false with (isPlaying s1).
    rewrite (proj1 (set_fields_same (updateSplines s1).1 _ _ Hp Ht)).
    apply updateSplines_idempotent.
Qed.

Lemma loader_eq (s s' : SplineLoader) :
  splines s = splines s' → currentTime s = currentTime s' →
  duration s = duration s' → isPlaying s = isPlaying s' → loop s = loop s' →
  speed s = speed s' → metadata s = metadata s' → s = s'.
Proof. destruct s, s'. simpl. by intros -> -> -> -> -> -> ->. Qed.

Lemma updateSplines_eq (s s' : SplineLoader) :
  updateSplines_forEach (metadata s) (currentTime s) (splines s)
  = updateSplines_forEach (metadata s') (currentTime s') (splines s') →
  currentTime s = currentTime s' → duration s = duration s' →
  isPlaying s = isPlaying s' → loop s = loop s' → speed s = speed s' →
  metadata s = metadata s' →
  updateSplines s = updateSplines s'.
Proof.
  intros H Ht Hd Hp Hl Hs Hm. unfold updateSplines. rewrite H.
  destruct (updateSplines_forEach _ _ (splines s')) as [l c].
  f_equal. by apply loader_eq.
Qed.

Lemma updateSplines_parts (s : SplineLoader) :
  splines (updateSplines s).1
  = (updateSplines_forEach (metadata s) (currentTime s) (splines s)).1
  ∧ (updateSplines s).2
    = (updateSplines_forEach (metadata s) (currentTime s) (splines s)).2.
Proof. unfold updateSplines. by destruct (updateSplines_forEach _ _ _). Qed.

(** X15.  The buffers are a function of the time alone: when neither call
    throws, [setTime(t)] after [setTime(u)] leaves the loader exactly as
    [setTime(t)] alone does. *)
Theorem scrubbing_forgets_history (this : SplineLoader) (u t : Qc) :
  (setTime u this).2 = Normal → (setTime t this).2 = Normal →
  setTime t (setTime u this).1 = setTime t this.
Proof.
  unfold setTime.
  set (su := set_currentTime this (Num.Math_max 0 (Num.Math_min u (duration this)))).
  set (st := set_currentTime this (Num.Math_max 0 (Num.Math_min t (duration this)))).
  intros Hu Ht.
  destruct (updateSplines_frame su) as (_ & Hd & Hp & Hl & Hs & Hm & _).
  destruct (updateSplines_parts su) as [Hsu Hcu]. rewrite Hcu in Hu.
  destruct (updateSplines_parts st) as [_ Hct]. rewrite Hct in Ht.
  rewrite Hd. change (duration su) with (duration this). fold st.
  apply updateSplines_eq; simpl; try done.
  rewrite Hm, Hsu. by apply updateSplines_forEach_after.
Qed.

Lemma scrubbing_forgets_history_witness :
  setTime (1 / 2) (setTime 1 (loader [track fs_sample true] 0 1 false true)).1
  = setTime (1 / 2) (loader [track fs_sample true] 0 1 false true).
Proof.
  apply (scrubbing_forgets_history
           (loader [track fs_sample true] 0 1 false true) 1 (1 / 2)).
  - apply (bool_decide_unpack _). vm_compute. reflexivity.
  - apply (bool_decide_unpack _). vm_compute. reflexivity.
Defined.

(** X16.  [stop()] is [pause()] followed by [setTime(0)], whatever the
    duration. *)
Theorem stop_is_pause_then_rewind (this : SplineLoader) :
  stop this = setTime 0 (pause this).1.
Proof.
  unfold stop, setTime, pause. simpl.
  replace (Num.Math_max 0 (Num.Math_min 0 (duration this))) with (0 : Qc); [done|].
  symmetry. apply Math_max_eq_l. apply Math_min_le_l.
Qed.

(** ** Composition of updates *)






(** X18.  Without looping, once an update has reached the duration the
    playback has ended: [currentTime] is the duration, [isPlaying] is false
    and every later update changes nothing at all. *)
Theorem finished_playback_stays (this : SplineLoader) (delta delta' : Qc) :
  loop this = false → isPlaying this = true → 0 < duration this →
  duration this ≤ currentTime this + delta * speed this →
  currentTime (update delta this).1 = duration this
  ∧ isPlaying (update delta this).1 = false
  ∧ update delta' (update delta this).1 = ((update delta this).1, Normal).
Proof.
  intros Hloop Hplay Hd Hfin.
  destruct (update_not_looping this delta Hloop Hplay (Qclt_ne_0 _ Hd))
    as (Ht & _ & Hp).
  rewrite bool_decide_eq_true_2 in Hp by done. simpl in Hp.
  split; [by rewrite Ht, Math_min_eq_r|]. split; [done|].
  unfold update at 1. by rewrite Hp.
Qed.

Lemma finished_playback_stays_witness :
  update 1 (update (Qc_of_Z 8) (loader [] 0 5 true false)).1
  = ((update (Qc_of_Z 8) (loader [] 0 5 true false)).1, Normal).
Proof.
  apply (finished_playback_stays (loader [] 0 5 true false) (Qc_of_Z 8) 1).
  - reflexivity.
  - reflexivity.
  - apply (bool_decide_unpack _). vm_compute. reflexivity.
  - apply (bool_decide_unpack _). vm_compute. reflexivity.
Defined.

(** ** Parsing *)

Lemma updateSplineGeometry_set_mesh (md : option Metadata.t) (spline : Spline)
    (m : option Mesh) (time : Qc) :
  updateSplineGeometry md (set_mesh spline m) time
  = (λ s, set_mesh s m) <$> updateSplineGeometry md spline time.
Proof.
  unfold updateSplineGeometry. destruct md as [md|]; [|done]. simpl.
  destruct (scanFrames _ _ _ _) as [[p|] [n|]]; simpl; [| | |done];
    (destruct (interpolateFrames _ _ _) as [d|e]; simpl; [|done];
     by destruct (buildPositions _ _)).
Qed.

Lemma foldl_Math_max_elem (fs : list Frame.t) (maxFrame : Qc) (f : Frame.t) :
  f ∈ fs →
  Frame.frame f
  ≤ foldl (λ maxFrame frame, Num.Math_max maxFrame (Frame.frame frame))
          maxFrame fs.
Proof.
  revert maxFrame. induction fs as [|g fs IH]; intros maxFrame Hf;
    [by apply elem_of_nil in Hf|].
  apply elem_of_cons in Hf as [->|Hf]; simpl.
  - etrans; [|apply foldl_Math_max_ge].
    unfold Num.Math_max. case_bool_decide as H; [apply Qcle_refl|].
    by apply Qclt_le_weak, Qclt_nge.
  - by apply IH.
Qed.

(** What [parseSplineData] makes of one input track, apart from the buffer:
    the conjunction used in the lemmas below. *)
Lemma parse_forEach_tracks (md : Metadata.t) (l : list SplineData)
    (this : SplineLoader) (maxFrame : Qc) :
  metadata this = Some md →
  (parse_forEach l this maxFrame).2 = Normal →
  ∃ new,
    splines (parse_forEach l this maxFrame).1.1 = splines this ++ new
    ∧ Forall2
        (λ d spline,
           track_static spline
           = (data_name d, data_frames d,
              {| color := 0x00ff00; linewidth := 2 |},
              Some {| mesh_name := data_name d;
                      mesh_material := {| color := 0x00ff00; linewidth := 2 |};
                      visible := true |},
              default false (Metadata.closed md))
           ∧ updateSplineGeometry (Some md) spline 0 = Ok spline)
        l new
    ∧ (parse_forEach l this maxFrame).1.2
      = foldl (λ maxFrame frame, Num.Math_max maxFrame (Frame.frame frame))
              maxFrame (l ≫= data_frames)
    ∧ same_but_time_and_buffers (set_splines this [])
        (set_splines (parse_forEach l this maxFrame).1.1 [])
    ∧ currentTime (parse_forEach l this maxFrame).1.1 = currentTime this.
Proof.
  revert this maxFrame.
  induction l as [|d l IH]; intros this maxFrame Hmd; simpl.
  - intros _. exists []. rewrite app_nil_r. repeat split; by try constructor.
  - rewrite Hmd. simpl.
    destruct (updateSplineGeometry (Some md) _ 0) as [spline|e] eqn:E; [|done].
    intros Hc.
    match type of Hc with context [parse_forEach l ?s ?m] =>
      destruct (IH s m Hmd Hc) as (new & Hs & Hnew & Hmax & Hsame & Ht) end.
    simpl in Hs. rewrite <- app_assoc in Hs. simpl in Hs.
    eexists. split; [exact Hs|]. split; [|split; [|split; [done|done]]].
    + constructor; [|done]. split.
      * apply updateSplineGeometry_static in E.
        unfold track_static in E |- *. simpl in E |- *.
        by injection E as -> -> -> _ ->.
      * change (updateSplineGeometry (Some md)
                  (set_mesh spline
                     (Some {| mesh_name := name spline;
                              mesh_material := material spline;
                              visible := true |})) 0
                = Ok (set_mesh spline
                        (Some {| mesh_name := name spline;
                                 mesh_material := material spline;
                                 visible := true |}))).
        rewrite updateSplineGeometry_set_mesh.
        by rewrite (updateSplineGeometry_idempotent _ _ _ _ E).
    + rewrite Hmax. by rewrite foldl_app.
Qed.

Lemma Qcdiv_le_mono (a b d : Qc) : 0 < d → a ≤ b → a / d ≤ b / d.
Proof.
  intros Hd H. unfold Qcdiv. apply Qcmult_le_compat_r; [done|].
  by apply Qclt_le_weak, Qcinv_pos.
Qed.

Lemma parseSplineData_ok (data : AssetData) (this0 this : SplineLoader) :
  parseSplineData data this0 = (this, Normal) →
  let md := default Metadata.empty (data_metadata data) in
  ∃ l,
    data_splines data = Some l
    ∧ metadata this = Some md
    ∧ Forall2
        (λ d spline,
           track_static spline
           = (data_name d, data_frames d,
              {| color := 0x00ff00; linewidth := 2 |},
              Some {| mesh_name := data_name d;
                      mesh_material := {| color := 0x00ff00; linewidth := 2 |};
                      visible := true |},
              default false (Metadata.closed md))
           ∧ updateSplineGeometry (Some md) spline 0 = Ok spline)
        l (splines this)
    ∧ duration this
      = foldl (λ maxFrame frame, Num.Math_max maxFrame (Frame.frame frame))
              0 (l ≫= data_frames)
        / frameRateOf md
    ∧ currentTime this = currentTime this0 ∧ isPlaying this = isPlaying this0
    ∧ loop this = loop this0 ∧ speed this = speed this0.
Proof.
  intros H md. unfold parseSplineData in H.
  destruct (data_splines data) as [l|]; [|done]. exists l. split; [done|].
  match type of H with context [parse_forEach l ?s ?m] =>
    pose proof (parse_forEach_tracks md l s m eq_refl) as Hp;
    destruct (parse_forEach l s m) as [[this' maxFrame] [|e]] end; [|done].
  destruct (Hp eq_refl) as (new & Hs & Hnew & Hmax & Hsame & Ht).
  simpl in *. injection H as <-. simpl.
  destruct Hsame as (Hp' & Hlo & Hsp & _ & Hm & _). simpl in *.
  rewrite Hs, Hm. split; [done|]. split; [done|].
  split; [by rewrite Hmax|]. done.
Qed.

(** X19.  A successful parse makes one track per input track, in order,
    each with the input's name and frames, the green line material, a
    visible mesh of the same name and the asset's closed flag; the duration
    is the largest frame number over all tracks (at least 0) divided by the
    frame rate; the tracks that the loader held before are dropped, and
    [currentTime], [isPlaying], [loop] and [speed] are left as they were. *)
Theorem parse_builds_tracks (data : AssetData) (l : list SplineData)
    (this0 this : SplineLoader) :
  data_splines data = Some l →
  parseSplineData data this0 = (this, Normal) →
  let md := default Metadata.empty (data_metadata data) in
  metadata this = Some md
  ∧ length (splines this) = length l
  ∧ (∀ i d, l !! i = Some d →
       ∃ spline,
         splines this !! i = Some spline
         ∧ name spline = data_name d ∧ frames spline = data_frames d
         ∧ material spline = {| color := 0x00ff00; linewidth := 2 |}
         ∧ mesh spline
           = Some {| mesh_name := data_name d;
                     mesh_material := {| color := 0x00ff00; linewidth := 2 |};
                     visible := true |}
         ∧ closed spline = default false (Metadata.closed md))
  ∧ duration this
    = foldl (λ maxFrame frame, Num.Math_max maxFrame (Frame.frame frame))
            0 (l ≫= data_frames)
      / frameRateOf md
  ∧ currentTime this = currentTime this0 ∧ isPlaying this = isPlaying this0
  ∧ loop this = loop this0 ∧ speed this = speed this0.
Proof.
  intros Hl H md.
  destruct (parseSplineData_ok data this0 this H)
    as (l' & Hl' & Hm & Hnew & Hd & Hrest).
  rewrite Hl in Hl'. injection Hl' as <-.
  split; [done|]. split; [symmetry; by eapply Forall2_length|].
  split; [|by split].
  intros i d Hi.
  destruct (Forall2_lookup_l _ _ _ _ _ Hnew Hi) as (spline & Hs & Hst & _).
  exists spline. split; [done|]. unfold track_static in Hst. by simplify_eq.
Qed.

Lemma parse_builds_tracks_witness :
  duration mixed_loader
  = foldl (λ maxFrame frame, Num.Math_max maxFrame (Frame.frame frame)) 0
      ([ {| data_name := "track";
            data_frames :=
              [ Frame.mk 0 (Some [Curve.mk None (Some [K 0 0 0; K 3 0 0])]) None;
                Frame.mk (Qc_of_Z 30) None (Some [P 1 0 0]) ] |} ]
         ≫= data_frames)
    / frameRateOf md30.
Proof.
  destruct (parse_builds_tracks
              {| data_metadata := Some md30;
                 data_splines :=
                   Some [ {| data_name := "track";
                             data_frames :=
                               [ Frame.mk 0 (Some [Curve.mk None (Some [K 0 0 0; K 3 0 0])]) None;
                                 Frame.mk (Qc_of_Z 30) None (Some [P 1 0 0]) ] |} ] |}
              [ {| data_name := "track";
                   data_frames :=
                     [ Frame.mk 0 (Some [Curve.mk None (Some [K 0 0 0; K 3 0 0])]) None;
                       Frame.mk (Qc_of_Z 30) None (Some [P 1 0 0]) ] |} ]
              constructor mixed_loader) as (_ & _ & _ & H & _).
  - reflexivity.
  - apply (bool_decide_unpack _). vm_compute. reflexivity.
  - exact H.
Defined.

(** X20.  After a successful parse with a positive frame rate the duration
    is not negative and no keyframe lies after it: every frame number of
    every track, divided by the frame rate, is at most the duration. *)
Theorem keyframes_within_duration (data : AssetData) (this0 this : SplineLoader)
    (spline : Spline) (f : Frame.t) :
  parseSplineData data this0 = (this, Normal) →
  0 < frameRateOf (default Metadata.empty (data_metadata data)) →
  spline ∈ splines this → f ∈ frames spline →
  0 ≤ duration this
  ∧ Frame.frame f / frameRateOf (default Metadata.empty (data_metadata data))
    ≤ duration this.
Proof.
  intros H Hrate Hs Hf.
  destruct (parseSplineData_ok data this0 this H)
    as (l & _ & _ & Hnew & -> & _).
  split.
  - apply div_nonneg; [apply foldl_Math_max_ge|done].
  - apply Qcdiv_le_mono; [done|]. apply foldl_Math_max_elem.
    apply list_elem_of_lookup in Hs as [i Hi].
    destruct (Forall2_lookup_r _ _ _ _ _ Hnew Hi) as (d & Hd & Hst & _).
    apply list_elem_of_bind. exists d. split.
    + unfold track_static in Hst. by injection Hst as _ <- _ _ _.
    + by eapply list_elem_of_lookup_2.
Qed.

Lemma keyframes_within_duration_witness :
  0 ≤ duration mixed_loader
  ∧ Qc_of_Z 30 / frameRateOf (default Metadata.empty (Some md30))
    ≤ duration mixed_loader.
Proof.
  apply (keyframes_within_duration
           {| data_metadata := Some md30;
              data_splines :=
                Some [ {| data_name := "track";
                          data_frames :=
                            [ Frame.mk 0 (Some [Curve.mk None (Some [K 0 0 0; K 3 0 0])]) None;
                              Frame.mk (Qc_of_Z 30) None (Some [P 1 0 0]) ] |} ] |}
           constructor mixed_loader
           {| name := "track";
              frames :=
                [ Frame.mk 0 (Some [Curve.mk None (Some [K 0 0 0; K 3 0 0])]) None;
                  Frame.mk (Qc_of_Z 30) None (Some [P 1 0 0]) ];
              geometry := geometry (default (track [] false) (splines mixed_loader !! 0%nat));
              material := {| color := 0x00ff00; linewidth := 2 |};
              mesh := Some {| mesh_name := "track";
                              mesh_material := {| color := 0x00ff00; linewidth := 2 |};
                              visible := true |};
              closed := false |}
           (Frame.mk (Qc_of_Z 30) None (Some [P 1 0 0]))).
  - apply (bool_decide_unpack _). vm_compute. reflexivity.
  - apply (bool_decide_unpack _). vm_compute. reflexivity.
  - left.
  - right. left.
Defined.

Lemma updateSplines_forEach_fixed md time (l : list Spline) :
  Forall (λ spline, updateSplineGeometry md spline time = Ok spline) l →
  updateSplines_forEach md time l = (l, Normal).
Proof.
  induction 1 as [|spline l Hs Hl IH]; simpl; [done|]. by rewrite Hs, IH.
Qed.

(** X21.  A loader that has just parsed an asset shows time 0: [stop()] and
    [setTime(0)] complete normally and change nothing, the buffers
    included. *)
Theorem fresh_load_is_at_time_0 (data : AssetData) (this : SplineLoader) :
  parseSplineData data constructor = (this, Normal) →
  stop this = (this, Normal) ∧ setTime 0 this = (this, Normal).
Proof.
  intros H.
  destruct (parseSplineData_ok data constructor this H)
    as (l & _ & Hm & Hnew & _ & Ht & Hp & _).
  assert (Hup : updateSplines this = (this, Normal)).
  { unfold updateSplines. rewrite Hm, Ht. simpl.
    rewrite updateSplines_forEach_fixed; [by destruct this|].
    apply Forall_lookup_2. intros i spline Hi.
    by destruct (Forall2_lookup_r _ _ _ _ _ Hnew Hi) as (d & _ & _ & ?). }
  assert (Hstop : stop this = (this, Normal)).
  { unfold stop. by rewrite (proj1 (set_fields_same this false 0 Hp Ht)). }
  split; [done|]. unfold setTime.
  replace (Num.Math_max 0 (Num.Math_min 0 (duration this))) with (0 : Qc)
    by (symmetry; apply Math_max_eq_l, Math_min_le_l).
  by rewrite (proj2 (set_fields_same this false 0 Hp Ht)).
Qed.

Lemma fresh_load_is_at_time_0_witness :
  stop mixed_loader = (mixed_loader, Normal).
Proof.
  apply (fresh_load_is_at_time_0
           {| data_metadata := Some md30;
              data_splines :=
                Some [ {| data_name := "track";
                          data_frames :=
                            [ Frame.mk 0 (Some [Curve.mk None (Some [K 0 0 0; K 3 0 0])]) None;
                              Frame.mk (Qc_of_Z 30) None (Some [P 1 0 0]) ] |} ] |}
           mixed_loader).
  apply (bool_decide_unpack _). vm_compute. reflexivity.
Defined.

(** ** Tracks by name, visibility and materials *)

Lemma list_find_same_names (n : string) (l l' : list Spline) :
  name <$> l' = name <$> l →
  match list_find (λ s, name s = n) l with
  | Some (i, _) =>
      ∃ spline', l' !! i = Some spline'
                 ∧ list_find (λ s, name s = n) l' = Some (i, spline')
  | None => list_find (λ s, name s = n) l' = None
  end.
Proof.
  revert l'. induction l as [|s l IH]; intros [|s' l'] H; try done.
  injection H as Hs Hl. cbn. rewrite Hs.
  destruct (decide (name s = n)); [by eexists|].
  specialize (IH l' Hl).
  destruct (list_find _ l) as [[i x]|]; simpl.
  - destruct IH as (spline' & Hi & ->). by eexists.
  - by rewrite IH.
Qed.

Lemma names_insert (l : list Spline) (i : nat) (spline spline' : Spline) :
  l !! i = Some spline → name spline' = name spline →
  name <$> <[i:=spline']> l = name <$> l.
Proof.
  intros Hi Hn. rewrite list_fmap_insert. apply list_insert_id.
  by rewrite list_lookup_fmap, Hi, Hn.
Qed.

Lemma findSpline_Some (n : string) (this : SplineLoader) (i : nat)
    (spline : Spline) :
  findSpline n this = Some (i, spline) →
  splines this !! i = Some spline ∧ name spline = n.
Proof. intros H. apply list_find_Some in H. by destruct H as (? & ? & _). Qed.

Lemma findSpline_insert (n n' : string) (this : SplineLoader) (i : nat)
    (spline spline' : Spline) :
  findSpline n this = Some (i, spline) → name spline' = name spline →
  list_find (λ s, name s = n') (<[i:=spline']> (splines this))
  = if decide (n' = n) then Some (i, spline') else findSpline n' this.
Proof.
  intros Hf Hn. destruct (findSpline_Some _ _ _ _ Hf) as [Hi Hname].
  pose proof (list_find_same_names n' (splines this) (<[i:=spline']> (splines this))
                (names_insert _ _ _ _ Hi Hn)) as H.
  destruct (decide (n' = n)) as [->|Hne].
  - unfold findSpline in Hf. rewrite Hf in H.
    destruct H as (s & Hs & ->).
    rewrite list_lookup_insert_eq in Hs by by eapply lookup_lt_Some.
    by simplify_eq.
  - unfold findSpline. destruct (list_find _ (splines this)) as [[j x]|] eqn:E;
      [|done].
    destruct H as (s & Hs & ->). apply list_find_Some in E as (Hj & Hx & _).
    rewrite list_lookup_insert_ne in Hs by (intros ->; congruence).
    congruence.
Qed.

(** X22.  [setSplineVisibility(name, v)] does nothing when no track has
    that name; otherwise it sets the visibility of the mesh of the first
    track with that name, and afterwards [getSplineByName(name)] returns
    that track with the new visibility.  Looking up any other name gives
    what it gave before, and no position buffer, name or frame list changes. *)
Theorem setSplineVisibility_effect (this : SplineLoader) (n : string) (v : bool) :
  (getSplineByName n this = None → setSplineVisibility n v this = this)
  ∧ (∀ spline me,
       getSplineByName n this = Some spline → mesh spline = Some me →
       ∃ spline',
         getSplineByName n (setSplineVisibility n v this) = Some spline'
         ∧ mesh spline'
           = Some {| mesh_name := mesh_name me;
                     mesh_material := mesh_material me; visible := v |}
         ∧ geometry spline' = geometry spline ∧ frames spline' = frames spline)
  ∧ (∀ n', n' ≠ n →
       getSplineByName n' (setSplineVisibility n v this)
       = getSplineByName n' this)
  ∧ geometry <$> splines (setSplineVisibility n v this)
    = geometry <$> splines this
  ∧ name <$> splines (setSplineVisibility n v this) = name <$> splines this
  ∧ frames <$> splines (setSplineVisibility n v this)
    = frames <$> splines this.
Proof.
  unfold setSplineVisibility, getSplineByName.
  destruct (findSpline n this) as [[i spline]|] eqn:Hf; simpl.
  - assert (Hn : name (assign_mesh_visible v spline) = name spline).
    { unfold assign_mesh_visible. by destruct (mesh spline). }
    destruct (findSpline_Some _ _ _ _ Hf) as [Hi _].
    split; [done|]. split; [|split; [|split; [|split]]].
    + intros ? me [= <-] Hme. unfold findSpline. simpl.
      rewrite (findSpline_insert n n this i spline _ Hf Hn).
      rewrite decide_True by done. simpl. eexists. split; [done|].
      unfold assign_mesh_visible. by rewrite Hme.
    + intros n' Hne. unfold findSpline at 1. simpl.
      rewrite (findSpline_insert n n' this i spline _ Hf Hn).
      by rewrite decide_False.
    + rewrite list_fmap_insert. apply list_insert_id.
      rewrite list_lookup_fmap, Hi. unfold assign_mesh_visible.
      by destruct (mesh spline).
    + by apply (names_insert _ _ spline).
    + rewrite list_fmap_insert. apply list_insert_id.
      rewrite list_lookup_fmap, Hi. unfold assign_mesh_visible.
      by destruct (mesh spline).
  - by repeat split.
Qed.




(** X24.  A loader without tracks (a new one, or one that was disposed of)
    is inert: every public operation completes normally, also without
    metadata, the track list stays empty and no name is found. *)
Theorem loader_without_tracks_inert (this : SplineLoader) (c : Call) (n : string) :
  splines this = [] →
  (run c this).2 = Normal ∧ splines (run c this).1 = []
  ∧ getSplineByName n this = None
  ∧ (run c (dispose this).1).2 = Normal.
Proof.
  intros Hs.
  assert (Hup : ∀ s, splines s = [] →
            (updateSplines s).2 = Normal ∧ splines (updateSplines s).1 = []).
  { intros s Hs'. unfold updateSplines. by rewrite Hs'. }
  assert (Hrun : ∀ s, splines s = [] →
            (run c s).2 = Normal ∧ splines (run c s).1 = []).
  { intros s Hs'. destruct c as [| | |time|progress|deltaTime]; simpl;
      try done; try (by apply Hup).
    unfold update. destruct (_ || _); [done|].
    apply Hup. by destruct (loop _); [|case_bool_decide]. }
  destruct (Hrun this Hs) as [H1 H2]. split; [done|]. split; [done|].
  split; [unfold getSplineByName, findSpline; by rewrite Hs|].
  by apply Hrun.
Qed.

Lemma loader_without_tracks_inert_witness :
  (run (SetTime 1) constructor).2 = Normal.
Proof.
  destruct (loader_without_tracks_inert constructor (SetTime 1) "track")
    as (H & _).
  - reflexivity.
  - exact H.
Defined.

(** ** Mesh attributes and playback are independent *)

Lemma updateSplines_forEach_names md time (l : list Spline) :
  name <$> (updateSplines_forEach md time l).1 = name <$> l.
Proof.
  induction l as [|spline l IH]; simpl; [done|].
  destruct (updateSplineGeometry md spline time) as [spline'|e] eqn:E; [|done].
  destruct (updateSplines_forEach md time l) as [l' c]. simpl in *.
  apply updateSplineGeometry_static in E. unfold track_static in E.
  f_equal; [by simplify_eq|exact IH].
Qed.

Section mesh_assignment.
Variable F : Spline → Spline.
Hypothesis F_update : ∀ md s time,
  updateSplineGeometry md (F s) time = F <$> updateSplineGeometry md s time.

Lemma updateSplines_forEach_insert md time (l : list Spline) (i : nat)
    (spline : Spline) :
  l !! i = Some spline →
  ∃ spline',
    (updateSplines_forEach md time l).1 !! i = Some spline'
    ∧ updateSplines_forEach md time (<[i:=F spline]> l)
      = (<[i:=F spline']> (updateSplines_forEach md time l).1,
         (updateSplines_forEach md time l).2).
Proof.
  revert i. induction l as [|s l IH]; intros i Hi; [done|].
  destruct i as [|i]; simpl in *.
  - simplify_eq. rewrite F_update.
    destruct (updateSplineGeometry md spline time) as [spline'|e]; simpl.
    + destruct (updateSplines_forEach md time l) as [l' c]. by eexists.
    + by eexists.
  - destruct (updateSplineGeometry md s time) as [s'|e]; simpl.
    + destruct (IH i Hi) as (spline' & Hs & ->).
      destruct (updateSplines_forEach md time l) as [l' c]. simpl in *.
      by eexists.
    + by eexists.
Qed.

Lemma updateSplines_assign (n : string) (s : SplineLoader) :
  let assign s :=
    match findSpline n s with
    | Some (i, spline) => set_splines s (<[i:=F spline]> (splines s))
    | None => s
    end in
  updateSplines (assign s)
  = (assign (updateSplines s).1, (updateSplines s).2).
Proof.
  simpl. unfold findSpline.
  pose proof (list_find_same_names n (splines s) (splines (updateSplines s).1)) as Hn.
  destruct (updateSplines_parts s) as [Hsp Hc].
  rewrite Hsp, updateSplines_forEach_names in Hn. specialize (Hn eq_refl).
  rewrite <- Hsp in Hn.
  destruct (list_find _ (splines s)) as [[i spline]|] eqn:Hf.
  - destruct Hn as (spline' & Hi' & ->).
    apply list_find_Some in Hf as (Hi & _).
    destruct (updateSplines_forEach_insert (metadata s) (currentTime s)
                (splines s) i spline Hi) as (spline'' & Hi'' & Hins).
    rewrite <- Hsp in Hi''. simplify_eq.
    unfold updateSplines at 1. simpl. rewrite Hins. simpl.
    rewrite <- Hsp, <- Hc. f_equal.
    destruct (updateSplines_frame s) as (? & ? & ? & ? & ? & ? & _).
    by apply loader_eq.
  - rewrite Hn. by destruct (updateSplines s).
Qed.
End mesh_assignment.

Lemma updateSplineGeometry_assign_mesh_visible (v : bool)
    (md : option Metadata.t) (s : Spline) (time : Qc) :
  updateSplineGeometry md (assign_mesh_visible v s) time
  = assign_mesh_visible v <$> updateSplineGeometry md s time.
Proof.
  unfold assign_mesh_visible at 1. destruct (mesh s) as [me|] eqn:E.
  - rewrite updateSplineGeometry_set_mesh.
    destruct (updateSplineGeometry md s time) as [s'|e] eqn:Es; [|done].
    apply updateSplineGeometry_static in Es. unfold track_static in Es.
    simpl. unfold assign_mesh_visible.
    replace (mesh s') with (mesh s) by by simplify_eq. by rewrite E.
  - destruct (updateSplineGeometry md s time) as [s'|e] eqn:Es; [|done].
    apply updateSplineGeometry_static in Es. unfold track_static in Es.
    simpl. unfold assign_mesh_visible.
    replace (mesh s') with (mesh s) by by simplify_eq. by rewrite E.
Qed.

Lemma updateSplineGeometry_assign_mesh_material (m : Material)
    (md : option Metadata.t) (s : Spline) (time : Qc) :
  updateSplineGeometry md (assign_mesh_material m s) time
  = assign_mesh_material m <$> updateSplineGeometry md s time.
Proof.
  unfold assign_mesh_material at 1. destruct (mesh s) as [me|] eqn:E.
  - rewrite updateSplineGeometry_set_mesh.
    destruct (updateSplineGeometry md s time) as [s'|e] eqn:Es; [|done].
    apply updateSplineGeometry_static in Es. unfold track_static in Es.
    simpl. unfold assign_mesh_material.
    replace (mesh s') with (mesh s) by by simplify_eq. by rewrite E.
  - destruct (updateSplineGeometry md s time) as [s'|e] eqn:Es; [|done].
    apply updateSplineGeometry_static in Es. unfold track_static in Es.
    simpl. unfold assign_mesh_material.
    replace (mesh s') with (mesh s) by by simplify_eq. by rewrite E.
Qed.

(** X25.  Visibility and material of a mesh are independent of playback:
    [setSplineVisibility] or [setSplineMaterial] before [setTime(t)] gives
    the same loader, buffers included, and the same completion as the same
    call after [setTime(t)]. *)
Theorem mesh_attributes_commute_with_scrubbing (this : SplineLoader)
    (n : string) (v : bool) (m : Material) (time : Qc) :
  setTime time (setSplineVisibility n v this)
  = (setSplineVisibility n v (setTime time this).1, (setTime time this).2)
  ∧ setTime time (setSplineMaterial n m this)
    = (setSplineMaterial n m (setTime time this).1, (setTime time this).2).
Proof.
  split.
  - pose proof (updateSplines_assign (assign_mesh_visible v)
                  (updateSplineGeometry_assign_mesh_visible v) n
                  (set_currentTime this
                     (Num.Math_max 0 (Num.Math_min time (duration this))))) as H.
    simpl in H. unfold setTime, setSplineVisibility. rewrite <- H.
    unfold findSpline. simpl. by destruct (list_find _ _) as [[i s]|].
  - pose proof (updateSplines_assign (assign_mesh_material m)
                  (updateSplineGeometry_assign_mesh_material m) n
                  (set_currentTime this
                     (Num.Math_max 0 (Num.Math_min time (duration this))))) as H.
    simpl in H. unfold setTime, setSplineMaterial. rewrite <- H.
    unfold findSpline. simpl. by destruct (list_find _ _) as [[i s]|].
Qed.

(** ** Sequences of calls *)

Lemma run_frame (c : Call) (this : SplineLoader) :
  duration (run c this).1 = duration this ∧ speed (run c this).1 = speed this
  ∧ loop (run c this).1 = loop this ∧ metadata (run c this).1 = metadata this
  ∧ track_static <$> splines (run c this).1 = track_static <$> splines this.
Proof.
  assert (Hup : ∀ s,
            duration s = duration this → speed s = speed this →
            loop s = loop this → metadata s = metadata this →
            splines s = splines this →
            duration (updateSplines s).1 = duration this
            ∧ speed (updateSplines s).1 = speed this
            ∧ loop (updateSplines s).1 = loop this
            ∧ metadata (updateSplines s).1 = metadata this
            ∧ track_static <$> splines (updateSplines s).1
              = track_static <$> splines this).
  { intros s <- <- <- <- <-.
    by destruct (updateSplines_frame s) as (_ & -> & _ & -> & -> & -> & ->). }
  destruct c as [| | |time|progress|deltaTime]; simpl; try done;
    try (by apply Hup).
  unfold update. destruct (_ || _); [done|].
  apply Hup; simpl; destruct (loop this) eqn:E; simpl; try done;
    case_bool_decide; simpl; by rewrite ?E.
Qed.

Lemma run_in_range (this : SplineLoader) (c : Call) :
  time_in_range this →
  (∀ deltaTime, c = Update deltaTime → 0 ≤ deltaTime * speed this) →
  time_in_range (run c this).1.
Proof.
  intros [Hlo Hhi] Hdelta.
  assert (Hdur : 0 ≤ duration this) by by etrans.
  destruct c as [| | |time|progress|deltaTime]; simpl; [done|done| | | |].
  - unfold stop.
    match goal with |- context [updateSplines ?s] =>
      pose proof (updateSplines_frame s) as H end.
    unfold time_in_range. by destruct H as (-> & -> & _).
  - by apply setTime_in_range.
  - by apply setTime_in_range.
  - specialize (Hdelta deltaTime eq_refl).
    assert (Hadv : 0 ≤ currentTime this + deltaTime * speed this)
      by by apply Qcplus_nonneg_nonneg.
    destruct (isPlaying this) eqn:Hplay; [|by unfold update; rewrite Hplay].
    destruct (decide (duration this = 0)) as [Hz|Hnz];
      [by unfold update; rewrite Hplay, bool_decide_eq_true_2|].
    assert (Hpos : 0 < duration this).
    { apply Qclt_nge. intros Hle. apply Hnz. by apply (anti_symm Qcle). }
    unfold time_in_range. destruct (loop this) eqn:Hloop.
    + destruct (update_looping this deltaTime Hloop Hplay Hnz) as (-> & -> & _).
      destruct (rem_bounds _ _ Hadv Hpos) as [H1 H2].
      split; [done|by apply Qclt_le_weak].
    + destruct (update_not_looping this deltaTime Hloop Hplay Hnz)
        as (-> & -> & _).
      split; [by apply Math_min_glb|apply Math_min_le_r].
Qed.

(** X26.  No public operation changes the duration, the speed, the loop
    flag, the metadata, or the name, frames, material, mesh and closed flag
    of any track: over any sequence of calls only [currentTime],
    [isPlaying] and the position buffers vary. *)
Theorem calls_keep_configuration (calls : list Call) (this : SplineLoader) :
  duration (run_all calls this) = duration this
  ∧ speed (run_all calls this) = speed this
  ∧ loop (run_all calls this) = loop this
  ∧ metadata (run_all calls this) = metadata this
  ∧ track_static <$> splines (run_all calls this)
    = track_static <$> splines this.
Proof.
  revert this. induction calls as [|c calls IH]; intros this; [done|].
  unfold run_all in *. simpl.
  destruct (IH (run c this).1) as (-> & -> & -> & -> & ->).
  apply run_frame.
Qed.

(** X27.  From a state with [currentTime] in [[0, duration]], any sequence
    of public calls all of whose updates go forward
    ([deltaTime * speed ≥ 0]) ends in a state with [currentTime] in
    [[0, duration]], and so with [getProgress] in [[0, 1]]; calls that throw
    are included. *)
Theorem calls_keep_time_in_range (calls : list Call) (this : SplineLoader) :
  time_in_range this →
  (∀ deltaTime, Update deltaTime ∈ calls → 0 ≤ deltaTime * speed this) →
  time_in_range (run_all calls this)
  ∧ 0 ≤ getProgress (run_all calls this)
  ∧ getProgress (run_all calls this) ≤ 1.
Proof.
  intros Hin Hfw.
  assert (H : time_in_range (run_all calls this)).
  { revert this Hin Hfw. induction calls as [|c calls IH]; intros this Hin Hfw;
      [done|].
    unfold run_all in *. simpl. apply IH.
    - apply run_in_range; [done|]. intros deltaTime ->. apply Hfw. left.
    - intros deltaTime Hd. destruct (run_frame c this) as (_ & -> & _).
      apply Hfw. by right. }
  split; [done|]. destruct H as [Hlo Hhi]. unfold getProgress.
  case_bool_decide as Hd.
  - split; [by apply div_nonneg|by apply Qcdiv_le_1].
  - split; [done|compute_done].
Qed.

Lemma calls_keep_time_in_range_witness :
  time_in_range
    (run_all [Play; Update (Qc_of_Z 7); SetProgress 2; Update (Qc_of_Z 7); Stop]
       (loader [] 0 10 false true)).
Proof.
  apply (calls_keep_time_in_range
           [Play; Update (Qc_of_Z 7); SetProgress 2; Update (Qc_of_Z 7); Stop]
           (loader [] 0 10 false true)).
  - split; apply (bool_decide_unpack _); vm_compute; reflexivity.
  - intros deltaTime H.
    apply elem_of_cons in H as [H|H]; [discriminate H|].
    apply elem_of_cons in H as [H|H];
      [injection H as ->; apply (bool_decide_unpack _); vm_compute; reflexivity|].
    apply elem_of_cons in H as [H|H]; [discriminate H|].
    apply elem_of_cons in H as [H|H];
      [injection H as ->; apply (bool_decide_unpack _); vm_compute; reflexivity|].
    apply elem_of_cons in H as [H|H]; [discriminate H|].
    by apply elem_of_nil in H.
Defined.

(** ** A parse that fails *)



